(** * Host endpoints controller of the etcd operator

    A shallow embedding of
    [pkg/operator/hostendpointscontroller/host_endpoints_controller.go]
    and the properties of its reconcile loop: the builder stage of
    [syncHostEndpoints], the DNS reverse lookup, the order-independent
    subset comparison, the conditional write of [applyEndpoints] and the
    status reporting of [sync].

    Go functions that return [(value, error)] return a [result] or a pair
    of options here, a run-time panic is an explicit outcome ([res]), and
    the functions that touch the API server run in a state monad over the
    [world].  Logging through [klog] has no effect on the results and is
    left out. *)

From Stdlib Require Import String Ascii ZArith List.
From stdpp Require Import base option list gmap strings sorting.

(** ** Go values: errors and panics *)

(** A Go [error] value.  [errNotFound] is what [errors.IsNotFound] reads,
    [errMsg] is what [err.Error()] and the [%v] verb print. *)
Record error := mkError { errNotFound : bool; errMsg : string }.

#[global] Instance error_eq_dec : EqDecision error.
Proof. solve_decision. Defined.

(** [fmt.Errorf]: a fresh error carrying the formatted text. *)
Definition Errorf (msg : string) : error :=
  {| errNotFound := false; errMsg := msg |}.

(** [errors.IsNotFound]; a nil error is not "not found". *)
Definition IsNotFound (err : option error) : bool :=
  match err with
  | Some e => errNotFound e
  | None => false
  end.

(** The [%q] verb on a string without special characters. *)
Definition quoted (s : string) : string :=
  String "034"%char (s +:+ String "034"%char EmptyString).

(** The two run-time panics the controller can raise. *)
Inductive panic := IndexOutOfRange | NilPointerDereference.

#[global] Instance panic_eq_dec : EqDecision panic.
Proof. solve_decision. Defined.

(** Result of a computation that may panic. *)
Inductive res (A : Type) : Type :=
| Val (a : A)
| Panics (p : panic).
Arguments Val {A} a.
Arguments Panics {A} p.

#[global] Instance res_ret : MRet res := fun A a => Val a.
#[global] Instance res_bind : MBind res := fun A B f m =>
  match m with
  | Val a => f a
  | Panics p => Panics p
  end.

(** [s[i]] on a slice: out of range panics. *)
Definition index {A : Type} (s : list A) (i : nat) : res A :=
  match s !! i with
  | Some a => Val a
  | None => Panics IndexOutOfRange
  end.

(** [*p] on a pointer: nil panics. *)
Definition deref {A : Type} (p : option A) : res A :=
  match p with
  | Some a => Val a
  | None => Panics NilPointerDereference
  end.

(** ** Package strings *)

Module strings.

Definition inCutset (cutset : string) (c : ascii) : bool :=
  existsb (Ascii.eqb c) (list_ascii_of_string cutset).

Fixpoint TrimLeft (s cutset : string) : string :=
  match s with
  | EmptyString => EmptyString
  | String c s' => if inCutset cutset c then TrimLeft s' cutset else s
  end.

Definition TrimRight (s cutset : string) : string :=
  String.rev (TrimLeft (String.rev s) cutset).

(** [strings.Trim]: all leading and trailing characters of the cutset
    are removed. *)
Definition Trim (s cutset : string) : string :=
  TrimRight (TrimLeft s cutset) cutset.

Definition HasSuffix (s suffix : string) : bool :=
  String.prefix (String.rev suffix) (String.rev s).

(** [strings.TrimSuffix]: the suffix is removed once, when present. *)
Definition TrimSuffix (s suffix : string) : string :=
  if HasSuffix s suffix
  then substring 0 (String.length s - String.length suffix) s
  else s.

End strings.

(** ** Data model (k8s.io/api/core/v1 and apimachinery) *)

(** Modelled from the spec: the type declarations live in the vendored
    API packages.  An [EndpointAddress] is the spec's EndpointRecord
    {IP, hostname, nodeRef}; [NodeName] is a [*string], nil for entries
    that have no node. *)
Record EndpointAddress := mkEndpointAddress {
  IP : string;
  Hostname : string;
  NodeName : option string
}.

Record EndpointPort := mkEndpointPort {
  PortName : string;
  Port : Z;
  Protocol : string
}.

Record EndpointSubset := mkEndpointSubset {
  Addresses : list EndpointAddress;
  NotReadyAddresses : list EndpointAddress;
  Ports : list EndpointPort
}.

(** Modelled from the spec: the metadata the controller reads and
    merges.  A nil map and an empty map are both the empty [gmap]. *)
Record ObjectMeta := mkObjectMeta {
  Name : string;
  Namespace : string;
  Labels : gmap string string;
  Annotations : gmap string string
}.

Record Endpoints := mkEndpoints {
  Meta : ObjectMeta;
  Subsets : list EndpointSubset
}.

#[global] Instance EndpointAddress_eq_dec : EqDecision EndpointAddress.
Proof. solve_decision. Defined.
#[global] Instance EndpointPort_eq_dec : EqDecision EndpointPort.
Proof. solve_decision. Defined.
#[global] Instance EndpointSubset_eq_dec : EqDecision EndpointSubset.
Proof. solve_decision. Defined.
#[global] Instance ObjectMeta_eq_dec : EqDecision ObjectMeta.
Proof. solve_decision. Defined.
#[global] Instance Endpoints_eq_dec : EqDecision Endpoints.
Proof. solve_decision. Defined.

(** ** Package sort

    [sort.Slice] is modelled by the library's insertion sort, which is
    what it runs on slices of up to six elements (twelve since Go 1.19):
    the element at [j] moves left by swaps while [less j (j-1)] holds.
    The comparator is a closure over the slice being sorted, so it is
    given the current contents at each call, and a panic inside it aborts
    the sort.  Where the comparator does not panic the result is the
    sorted permutation of the input ([sortAddresses_ok]), whatever the
    algorithm. *)

Module sort.
Section Slice.
Context {A : Type}.
Variable less : list A -> nat -> nat -> res bool.

Definition swap (data : list A) (i j : nat) : list A :=
  match data !! i, data !! j with
  | Some x, Some y => <[i:=y]> (<[j:=x]> data)
  | _, _ => data
  end.

(** [for j := i; j > 0 && less(j, j-1); j-- { swap(j, j-1) }] *)
Fixpoint insertionInner (data : list A) (j : nat) : res (list A) :=
  match j with
  | O => Val data
  | S j' =>
      b ← less data j j';
      if b : bool then insertionInner (swap data j j') j' else Val data
  end.

(** [for i := 1; i < n; i++ { ... }], with [k] iterations left. *)
Fixpoint insertionOuter (data : list A) (i k : nat) : res (list A) :=
  match k with
  | O => Val data
  | S k' =>
      data' ← insertionInner data i;
      insertionOuter data' (S i) k'
  end.

Definition Slice (data : list A) : res (list A) :=
  insertionOuter data 1 (length data - 1).
End Slice.
End sort.

(** ** Subset comparison (lines 299-345) *)

Definition newEndpointAddressSliceComparator
    (endpointAddresses : list EndpointAddress) (i j : nat) : res bool :=
  ai ← index endpointAddresses i;
  aj ← index endpointAddresses j;
  if negb (String.eqb (IP ai) (IP aj)) then
    Val (String.ltb (IP ai) (IP aj))
  else if negb (String.eqb (Hostname ai) (Hostname aj)) then
    Val (String.ltb (Hostname ai) (Hostname aj))
  else
    ni ← deref (NodeName ai);
    nj ← deref (NodeName aj);
    Val (String.ltb ni nj).

(** [reflect.DeepEqual] on two non-nil slices of addresses: pointers are
    compared through their pointees. *)
Definition DeepEqual (l r : list EndpointAddress) : bool := bool_decide (l = r).

Definition endpointSubsetEqual (lhs rhs : EndpointSubset) : res bool :=
  if negb (length (Addresses lhs) =? length (Addresses rhs))%nat then Val false
  else if negb (length (NotReadyAddresses lhs) =? length (NotReadyAddresses rhs))%nat
  then Val false
  else if negb (length (Ports lhs) =? length (Ports rhs))%nat then Val false
  else
    let count := length (Addresses lhs) in
    (* the deep copies of the first [count] addresses of each side *)
    let lhsAddresses := take count (Addresses lhs) in
    let rhsAddresses := take count (Addresses rhs) in
    lhsSorted ← sort.Slice newEndpointAddressSliceComparator lhsAddresses;
    rhsSorted ← sort.Slice newEndpointAddressSliceComparator rhsAddresses;
    Val (DeepEqual lhsSorted rhsSorted).

(** [for i := range lhs { if !endpointSubsetEqual(lhs[i], rhs[i]) ... }] *)
Fixpoint endpointsSubsetsEqualLoop (lhs rhs : list EndpointSubset) : res bool :=
  match lhs, rhs with
  | l :: lhs', r :: rhs' =>
      b ← endpointSubsetEqual l r;
      if b : bool then endpointsSubsetsEqualLoop lhs' rhs' else Val false
  | l :: _, [] => Panics IndexOutOfRange
  | [], _ => Val true
  end.

Definition endpointsSubsetsEqual (lhs rhs : list EndpointSubset) : res bool :=
  if negb (length lhs =? length rhs)%nat then Val false
  else endpointsSubsetsEqualLoop lhs rhs.

(** ** Cluster inputs and the API objects around the controller *)

(** A Go pair [(value, error)] of which exactly one side is set. *)
Inductive result (A : Type) : Type :=
| Ok (a : A)
| Err (e : error).
Arguments Ok {A} a.
Arguments Err {A} e.

(** [infrastructures.config.openshift.io/cluster], its status field. *)
Record Infrastructure := mkInfrastructure { EtcdDiscoveryDomain : string }.

(** [networks.config.openshift.io/cluster] *)
Record Network := mkNetwork { ServiceNetwork : list string }.

(** A node; [nodeListerList] returns those labelled
    [node-role.kubernetes.io/master]. *)
Module Node.
Record t := mk { Name : string; InternalIPs : list string }.
End Node.

(** [net.SRV] *)
Record SRV := mkSRV { Target : string; SrvPort : Z }.

Inductive ConditionStatus := ConditionTrue | ConditionFalse | ConditionUnknown.

Record OperatorCondition := mkOperatorCondition {
  Type_ : string;
  Status : ConditionStatus;
  Reason : string;
  Message : string
}.

#[global] Instance ConditionStatus_eq_dec : EqDecision ConditionStatus.
Proof. solve_decision. Defined.
#[global] Instance OperatorCondition_eq_dec : EqDecision OperatorCondition.
Proof. solve_decision. Defined.

(** What one reconcile reads from its collaborators: the listers, the
    resolver, and whether the API server accepts a write.  The helper
    [dnshelpers.GetPreferredInternalIPAddressForNodeName], the constant
    [operatorclient.TargetNamespace] and [resourceapply.JSONPatchNoError]
    are taken as given. *)
Record env := mkEnv {
  TargetNamespace : string;
  endpointsListerFault : option error;
  infrastructureListerGet : result Infrastructure;
  networkListerGet : result Network;
  nodeListerList : result (list Node.t);
  GetPreferredInternalIPAddressForNodeName : Network -> Node.t -> result string;
  LookupSRV : string -> string -> string -> result (list SRV);
  LookupHost : string -> result (list string);
  endpointsCreateFault : Endpoints -> option error;
  endpointsUpdateFault : Endpoints -> option error;
  updateStatusFault : OperatorCondition -> option error;
  JSONPatchNoError : Endpoints -> Endpoints -> string
}.

(** Calls that leave the controller, in the order they are made. *)
Inductive call :=
| CreateCall (required : Endpoints)
| UpdateCall (toWrite : Endpoints)
| WarningEvent (reason message : string)
| UpdateStatusCall (condition : OperatorCondition).

#[global] Instance call_eq_dec : EqDecision call.
Proof. solve_decision. Defined.

(** The mutable world: the published [host-etcd] object, the operator
    conditions, and the trace of outgoing calls.  The object is read by
    the lister and written by the client; the lister's cache is taken to
    be up to date with the client's writes. *)
Record world := mkWorld {
  published : option Endpoints;
  conditions : gmap string OperatorCondition;
  calls : list call
}.

(** Stateful computations that may panic. *)
Definition M (A : Type) : Type := world -> res A * world.

#[global] Instance M_ret : MRet M := fun A a w => (Val a, w).
#[global] Instance M_bind : MBind M := fun A B f m w =>
  match m w with
  | (Val a, w') => f a w'
  | (Panics p, w') => (Panics p, w')
  end.

Definition liftRes {A : Type} (r : res A) : M A := fun w => (r, w).

Definition record (c : call) : M unit :=
  fun w => (Val tt, {| published := published w;
                       conditions := conditions w;
                       calls := calls w ++ [c] |}).

(** The error of a lister that does not find [host-etcd]. *)
Definition notFoundError : error :=
  {| errNotFound := true;
     errMsg := "endpoints " +:+ quoted "host-etcd" +:+ " not found" |}.

(** [c.endpointsLister.Endpoints(ns).Get("host-etcd")] *)
Definition endpointsListerGet (e : env) : M (option Endpoints * option error) :=
  fun w =>
    match endpointsListerFault e with
    | Some err => (Val (None, Some err), w)
    | None =>
        match published w with
        | Some existing => (Val (Some existing, None), w)
        | None =>
            (Val (None, Some notFoundError), w)
        end
    end.

Definition store (obj : Endpoints) : M unit :=
  fun w => (Val tt, {| published := Some obj;
                       conditions := conditions w;
                       calls := calls w |}).

(** [c.endpointsClient.Endpoints(ns).Create(required)] *)
Definition endpointsCreate (e : env) (required : Endpoints) : M (option error) :=
  record (CreateCall required);;
  match endpointsCreateFault e required with
  | Some err => mret (Some err)
  | None => store required;; mret None
  end.

(** [c.endpointsClient.Endpoints(ns).Update(toWrite)] *)
Definition endpointsUpdate (e : env) (toWrite : Endpoints) : M (option error) :=
  record (UpdateCall toWrite);;
  match endpointsUpdateFault e toWrite with
  | Some err => mret (Some err)
  | None => store toWrite;; mret None
  end.

(** [c.eventRecorder.Warning] and [Warningf] *)
Definition Warning (reason message : string) : M unit :=
  record (WarningEvent reason message).

(** [v1helpers.UpdateStatus(c.operatorClient, v1helpers.UpdateConditionFn(cond))] *)
Definition UpdateStatus (e : env) (cond : OperatorCondition) : M (option error) :=
  record (UpdateStatusCall cond);;
  match updateStatusFault e cond with
  | Some err => mret (Some err)
  | None =>
      fun w => (Val None, {| published := published w;
                             conditions := <[Type_ cond := cond]> (conditions w);
                             calls := calls w |})
  end.

(** ** Package resourcemerge *)

Module resourcemerge.

(** A required string that is set replaces a different existing one. *)
Definition SetStringIfSet (modified : bool) (existing required : string)
  : bool * string :=
  if (String.length required =? 0)%nat then (modified, existing)
  else if negb (String.eqb required existing) then (true, required)
  else (modified, existing).

(** Every key of [required] is set in [existing]; [modified] is raised
    when that changes the map. *)
Definition MergeMap (modified : bool) (existing required : gmap string string)
  : bool * gmap string string :=
  let merged := required ∪ existing in
  (if bool_decide (merged = existing) then modified else true, merged).

(** Modelled from the spec: the vendored [resourcemerge.EnsureObjectMeta]
    copies the required name, namespace, labels and annotations onto the
    existing metadata additively; only keys present in [required] are set
    or overwritten, unrelated keys are kept, and any change sets
    [modified]. *)
Definition EnsureObjectMeta (modified : bool) (existing required : ObjectMeta)
  : bool * ObjectMeta :=
  let '(modified, namespace) :=
    SetStringIfSet modified (Namespace existing) (Namespace required) in
  let '(modified, name) :=
    SetStringIfSet modified (Name existing) (Name required) in
  let '(modified, labels) :=
    MergeMap modified (Labels existing) (Labels required) in
  let '(modified, annotations) :=
    MergeMap modified (Annotations existing) (Annotations required) in
  (modified, {| Name := name; Namespace := namespace;
                Labels := labels; Annotations := annotations |}).

End resourcemerge.

(** ** The controller (lines 97-297) *)

Definition hostEndpointsAsset (e : env) : Endpoints :=
  {| Meta := {| Name := "host-etcd";
                Namespace := TargetNamespace e;
                Labels := ∅;
                Annotations := ∅ |};
     Subsets := [ {| Addresses := [];
                     NotReadyAddresses := [];
                     Ports := [ {| PortName := "etcd";
                                   Port := 2379;
                                   Protocol := "TCP" |} ] |} ] |}.

Definition getEtcdDiscoveryDomain (e : env) : result string :=
  match infrastructureListerGet e with
  | Err err => Err err
  | Ok infrastructure =>
      let etcdDiscoveryDomain := EtcdDiscoveryDomain infrastructure in
      if (String.length etcdDiscoveryDomain =? 0)%nat then
        Err (Errorf "infrastructures.config.openshit.io/cluster missing .status.etcdDiscoveryDomain")
      else Ok etcdDiscoveryDomain
  end.

(** [for _, addr := range addrs { if addr == ip { selfTarget = ...; break } }] *)
Fixpoint reverseLookupAddrs (addrs : list string) (ip target selfTarget : string)
  : string :=
  match addrs with
  | [] => selfTarget
  | addr :: addrs' =>
      if String.eqb addr ip then strings.Trim target "."
      else reverseLookupAddrs addrs' ip target selfTarget
  end.

(** [for _, srv := range srvs { ... }] followed by the final test. *)
Fixpoint reverseLookupSrvs (e : env) (srvs : list SRV) (ip selfTarget : string)
  : result string :=
  match srvs with
  | [] =>
      if String.eqb selfTarget "" then Err (Errorf "could not find self")
      else Ok selfTarget
  | srv :: srvs' =>
      match LookupHost e (Target srv) with
      | Err _ => Err (Errorf ("could not resolve member " +:+ quoted (Target srv)))
      | Ok addrs =>
          reverseLookupSrvs e srvs' ip
            (reverseLookupAddrs addrs ip (Target srv) selfTarget)
      end
  end.

(** returns the target from the SRV record that resolves to ip. *)
Definition reverseLookup (e : env) (service proto name ip : string) : result string :=
  match LookupSRV e service proto name with
  | Err err => Err err
  | Ok srvs => reverseLookupSrvs e srvs ip ""
  end.

Definition getEtcdDNSName (e : env) (discoveryDomain ip : string) : result string :=
  match reverseLookup e "etcd-server-ssl" "tcp" discoveryDomain ip with
  | Err err => Err err
  | Ok dnsName => Ok dnsName
  end.

(** The loop over the master nodes of [syncHostEndpoints] (lines 155-173). *)
Fixpoint nodeEndpointAddresses (e : env) (discoveryDomain : string)
    (network : Network) (nodes : list Node.t)
    (endpointAddresses : list EndpointAddress) : result (list EndpointAddress) :=
  match nodes with
  | [] => Ok endpointAddresses
  | node :: nodes' =>
      match GetPreferredInternalIPAddressForNodeName e network node with
      | Err err => Err err
      | Ok nodeInternalIP =>
          if (String.length nodeInternalIP =? 0)%nat then
            Err (Errorf ("unable to determine internal ip address for node "
                         +:+ Node.Name node))
          else
            match getEtcdDNSName e discoveryDomain nodeInternalIP with
            | Err err =>
                Err (Errorf ("unable to determine etcd member dns name for node "
                             +:+ Node.Name node +:+ ": " +:+ errMsg err))
            | Ok dnsName =>
                nodeEndpointAddresses e discoveryDomain network nodes'
                  (endpointAddresses ++
                     [ {| IP := nodeInternalIP;
                          Hostname := strings.TrimSuffix dnsName ("." +:+ discoveryDomain);
                          NodeName := Some (Node.Name node) |} ])
            end
      end
  end.

(** The loop that keeps the bootstrap entry (lines 176-181): the first
    address named [etcd-bootstrap] is appended, then the loop breaks. *)
Fixpoint keepBootstrap (existingAddresses endpointAddresses : list EndpointAddress)
  : list EndpointAddress :=
  match existingAddresses with
  | [] => endpointAddresses
  | endpointAddress :: rest =>
      if String.eqb (Hostname endpointAddress) "etcd-bootstrap"
      then endpointAddresses ++ [endpointAddress]
      else keepBootstrap rest endpointAddresses
  end.

(** [required.Annotations[key] = value], after the nil map was replaced. *)
Definition setAnnotation (required : Endpoints) (key value : string) : Endpoints :=
  {| Meta := {| Name := Name (Meta required);
                Namespace := Namespace (Meta required);
                Labels := Labels (Meta required);
                Annotations := <[key := value]> (Annotations (Meta required)) |};
     Subsets := Subsets required |}.

(** [required.Subsets[0].Addresses = endpointAddresses] *)
Definition setSubset0Addresses (required : Endpoints)
    (endpointAddresses : list EndpointAddress) : res Endpoints :=
  subset0 ← index (Subsets required) 0;
  Val {| Meta := Meta required;
         Subsets := <[0%nat := {| Addresses := endpointAddresses;
                                  NotReadyAddresses := NotReadyAddresses subset0;
                                  Ports := Ports subset0 |}]> (Subsets required) |}.

Definition applyEndpoints (e : env) (required : Endpoints) : M (option error) :=
  '(existing, err) ← endpointsListerGet e;
  returned ←
    (if IsNotFound err then
       (* [_, err := ...Create(required)] declares a new [err] in this block *)
       err' ← endpointsCreate e required;
       match err' with
       | Some err' =>
           Warning "EndpointsCreateFailed"
             ("Failed to create endpoints/" +:+ Name (Meta required) +:+ " -n "
              +:+ Namespace (Meta required) +:+ ": " +:+ errMsg err');;
           mret (Some (Some err'))
       | None =>
           Warning "EndpointsCreated"
             ("Created endpoints/" +:+ Name (Meta required) +:+ " -n "
              +:+ Namespace (Meta required) +:+ " because it was missing");;
           mret None
       end
     else mret None);
  match returned with
  | Some r => mret r
  | None =>
  match err with
  | Some err => mret (Some err)
  | None =>
      let modified := false in
      toWrite ← liftRes (deref existing);
      let '(modified, meta) :=
        resourcemerge.EnsureObjectMeta modified (Meta toWrite) (Meta required) in
      let toWrite := {| Meta := meta; Subsets := Subsets toWrite |} in
      existing ← liftRes (deref existing);
      equal ← liftRes (endpointsSubsetsEqual (Subsets existing) (Subsets required));
      let '(modified, toWrite) :=
        if negb equal
        then (true, {| Meta := Meta toWrite; Subsets := Subsets required |})
        else (modified, toWrite) in
      if negb modified then
        (* no update needed *)
        mret None
      else
        let jsonPatch := JSONPatchNoError e existing toWrite in
        err ← endpointsUpdate e toWrite;
        match err with
        | Some err =>
            Warning "EndpointsUpdateFailed"
              ("Failed to update endpoints/" +:+ Name (Meta required) +:+ " -n "
               +:+ Namespace (Meta required) +:+ ": " +:+ errMsg err);;
            mret (Some err)
        | None =>
            Warning "EndpointsUpdated"
              ("Updated endpoints/" +:+ Name (Meta required) +:+ " -n "
               +:+ Namespace (Meta required) +:+ " because it changed: "
               +:+ jsonPatch);;
            mret None
        end
  end
  end.

Definition syncHostEndpoints (e : env) : M (option error) :=
  (* host-etc must exist in order to continue. *)
  '(existing, err) ← endpointsListerGet e;
  match err with
  | Some err => mret (Some err)
  | None =>
  let required := hostEndpointsAsset e in
  match getEtcdDiscoveryDomain e with
  | Err err =>
      mret (Some (Errorf ("unable to determine etcd discovery domain: " +:+ errMsg err)))
  | Ok discoveryDomain =>
  let required :=
    setAnnotation required "alpha.installer.openshift.io/dns-suffix" discoveryDomain in
  (* create endpoint addresses for each node *)
  match networkListerGet e with
  | Err err => mret (Some err)
  | Ok network =>
  match nodeListerList e with
  | Err err =>
      mret (Some (Errorf ("unable to list expected etcd member nodes: " +:+ errMsg err)))
  | Ok nodes =>
  match nodeEndpointAddresses e discoveryDomain network nodes [] with
  | Err err => mret (Some err)
  | Ok endpointAddresses =>
  (* if etcd-bootstrap exists, keep it *)
  existing ← liftRes (deref existing);
  subset0 ← liftRes (index (Subsets existing) 0);
  let endpointAddresses := keepBootstrap (Addresses subset0) endpointAddresses in
  required ← liftRes (setSubset0Addresses required endpointAddresses);
  subset0' ← liftRes (index (Subsets required) 0);
  if (length (Addresses subset0') =? 0)%nat then
    mret (Some (Errorf "no etcd member nodes are ready"))
  else applyEndpoints e required
  end end end end end.

Definition sync (e : env) : M (option error) :=
  err ← syncHostEndpoints e;
  match err with
  | Some err =>
      updateErr ← UpdateStatus e {| Type_ := "HostEndpointsDegraded";
                                    Status := ConditionTrue;
                                    Reason := "ErrorUpdatingHostEndpoints";
                                    Message := errMsg err |};
      match updateErr with
      | Some updateErr =>
          Warning "HostEndpointsErrorUpdatingStatus" (errMsg updateErr)
      | None => mret tt
      end;;
      mret (Some err)
  | None =>
      updateErr ← UpdateStatus e {| Type_ := "HostEndpointsDegraded";
                                    Status := ConditionFalse;
                                    Reason := "HostEndpointsUpdated";
                                    Message := "" |};
      match updateErr with
      | Some updateErr =>
          Warning "HostEndpointsErrorUpdatingStatus" (errMsg updateErr);;
          mret (Some updateErr)
      | None => mret None
      end
  end.

(** ** Specification vocabulary *)

(** A three-way comparison that is a total order. *)
Record total_compare {A : Type} (c : A -> A -> comparison) : Prop := {
  tc_eq : forall a b, c a b = Eq <-> a = b;
  tc_antisym : forall a b, c b a = CompOpp (c a b);
  tc_trans : forall a b d, c a b = Lt -> c b d = Lt -> c a d = Lt
}.

Definition cle {A : Type} (c : A -> A -> comparison) (a b : A) : Prop :=
  c a b <> Gt.

Definition lex_compare {A B : Type} (ca : A -> A -> comparison)
    (cb : B -> B -> comparison) (x y : A * B) : comparison :=
  match ca (fst x) (fst y) with
  | Eq => cb (snd x) (snd y)
  | r => r
  end.

(** Nil pointers are placed before every string; this only serves to
    extend the comparator to a total order on all addresses. *)
Definition node_compare (x y : option string) : comparison :=
  match x, y with
  | None, None => Eq
  | None, Some _ => Lt
  | Some _, None => Gt
  | Some a, Some b => String.compare a b
  end.

(** The comparator of [newEndpointAddressSliceComparator] on the two
    addresses it reads. *)
Definition lessAddress (ai aj : EndpointAddress) : res bool :=
  if negb (String.eqb (IP ai) (IP aj)) then
    Val (String.ltb (IP ai) (IP aj))
  else if negb (String.eqb (Hostname ai) (Hostname aj)) then
    Val (String.ltb (Hostname ai) (Hostname aj))
  else
    ni ← deref (NodeName ai);
    nj ← deref (NodeName aj);
    Val (String.ltb ni nj).

Definition key (a : EndpointAddress) : string * string := (IP a, Hostname a).

Definition key_compare : string * string -> string * string -> comparison :=
  lex_compare String.compare String.compare.

(** Ascending order on the tuple (IP, hostname, nodeRef). *)
Definition addr_compare (a b : EndpointAddress) : comparison :=
  lex_compare key_compare node_compare (key a, NodeName a) (key b, NodeName b).

Definition addr_le : relation EndpointAddress := cle addr_compare.

(** Two addresses on which the comparator reaches its tie-break with a
    nil [NodeName] on either side. *)
Definition nilTie (a b : EndpointAddress) : Prop :=
  key a = key b /\ (NodeName a = None \/ NodeName b = None).

#[global] Instance nilTie_dec a b : Decision (nilTie a b).
Proof. unfold nilTie. apply _. Defined.

(** No two addresses at distinct positions of [l] form such a pair. *)
Fixpoint nilTieFree (l : list EndpointAddress) : Prop :=
  match l with
  | [] => True
  | a :: l' => Forall (fun b => ~ nilTie a b) l' /\ nilTieFree l'
  end.

#[global] Instance nilTieFree_dec l : Decision (nilTieFree l).
Proof. induction l; simpl; apply _. Defined.

(** A reversed sorted prefix: every element is at least the later ones. *)
Definition descending (rp : list EndpointAddress) : Prop :=
  StronglySorted (fun y z => addr_le z y) rp.

(** Insertion of [x] to the left of a sorted prefix kept reversed: [x] is
    compared with the last element of the prefix first, as the inner loop
    of the insertion sort does. *)
Fixpoint insertLeft {A : Type} (lessV : A -> A -> res bool) (x : A) (rp : list A)
  : res (list A) :=
  match rp with
  | [] => Val [x]
  | y :: rp' =>
      b ← lessV x y;
      if b : bool then r ← insertLeft lessV x rp'; Val (y :: r) else Val (x :: rp)
  end.

Fixpoint insertAll {A : Type} (lessV : A -> A -> res bool) (rp rest : list A)
  : res (list A) :=
  match rest with
  | [] => Val (reverse rp)
  | x :: rest' => rp' ← insertLeft lessV x rp; insertAll lessV rp' rest'
  end.

Definition sortAddresses (l : list EndpointAddress) : res (list EndpointAddress) :=
  sort.Slice newEndpointAddressSliceComparator l.

(** All ready addresses of a published object, over all its subsets. *)
Definition allAddresses (obj : Endpoints) : list EndpointAddress :=
  concat (map Addresses (Subsets obj)).

(** The first address of a list whose hostname is exactly [etcd-bootstrap]. *)
Definition firstBootstrap (l : list EndpointAddress) : option EndpointAddress :=
  List.find (fun a => String.eqb (Hostname a) "etcd-bootstrap") l.

(** The object handed to [applyEndpoints] when the computed addresses are
    [endpointAddresses]: the asset, annotated with the discovery domain. *)
Definition desiredEndpoints (e : env) (discoveryDomain : string)
    (endpointAddresses : list EndpointAddress) : Endpoints :=
  {| Meta := {| Name := "host-etcd";
                Namespace := TargetNamespace e;
                Labels := ∅;
                Annotations :=
                  {[ "alpha.installer.openshift.io/dns-suffix" := discoveryDomain ]} |};
     Subsets := [ {| Addresses := endpointAddresses;
                     NotReadyAddresses := [];
                     Ports := [ {| PortName := "etcd";
                                   Port := 2379;
                                   Protocol := "TCP" |} ] |} ] |}.

(** The topology and DNS steps of the builder succeed: the discovery
    domain is [d] and the master nodes yield the addresses [members]. *)
Definition membersResolved (e : env) (d : string)
    (members : list EndpointAddress) : Prop :=
  exists network nodes,
    getEtcdDiscoveryDomain e = Ok d /\
    networkListerGet e = Ok network /\
    nodeListerList e = Ok nodes /\
    nodeEndpointAddresses e d network nodes [] = Ok members.

(** One node passes the body of the node loop. *)
Definition nodeResolves (e : env) (d : string) (network : Network)
    (node : Node.t) : Prop :=
  exists ip dnsName,
    GetPreferredInternalIPAddressForNodeName e network node = Ok ip /\
    ip <> "" /\
    getEtcdDNSName e d ip = Ok dnsName.

(** The lister returns the published object. *)
Definition existingRead (e : env) (w : world) (existing : Endpoints) : Prop :=
  endpointsListerFault e = None /\ published w = Some existing.

(** Why the node loop fails: at the first node that does not resolve. *)
Inductive nodeLoopFailure (e : env) (d : string) (network : Network)
    (nodes : list Node.t) : error -> Prop :=
| nlf_ip_error pre node post err :
    nodes = pre ++ node :: post ->
    Forall (nodeResolves e d network) pre ->
    GetPreferredInternalIPAddressForNodeName e network node = Err err ->
    nodeLoopFailure e d network nodes err
| nlf_ip_missing pre node post :
    nodes = pre ++ node :: post ->
    Forall (nodeResolves e d network) pre ->
    GetPreferredInternalIPAddressForNodeName e network node = Ok "" ->
    nodeLoopFailure e d network nodes
      (Errorf ("unable to determine internal ip address for node " +:+ Node.Name node))
| nlf_dns pre node post ip err :
    nodes = pre ++ node :: post ->
    Forall (nodeResolves e d network) pre ->
    GetPreferredInternalIPAddressForNodeName e network node = Ok ip ->
    ip <> "" ->
    getEtcdDNSName e d ip = Err err ->
    nodeLoopFailure e d network nodes
      (Errorf ("unable to determine etcd member dns name for node "
               +:+ Node.Name node +:+ ": " +:+ errMsg err)).

(** The errors of the builder stage of [syncHostEndpoints], by cause. *)
Inductive builderFailure (e : env) (w : world) : error -> Prop :=
| bf_existing_read existing err w' :
    endpointsListerGet e w = (Val (existing, Some err), w') ->
    builderFailure e w err
| bf_infrastructure_read existing err :
    existingRead e w existing ->
    infrastructureListerGet e = Err err ->
    builderFailure e w
      (Errorf ("unable to determine etcd discovery domain: " +:+ errMsg err))
| bf_discovery_domain_missing existing infrastructure :
    existingRead e w existing ->
    infrastructureListerGet e = Ok infrastructure ->
    EtcdDiscoveryDomain infrastructure = "" ->
    builderFailure e w
      (Errorf ("unable to determine etcd discovery domain: " +:+
               "infrastructures.config.openshit.io/cluster missing .status.etcdDiscoveryDomain"))
| bf_network_read existing d err :
    existingRead e w existing ->
    getEtcdDiscoveryDomain e = Ok d ->
    networkListerGet e = Err err ->
    builderFailure e w err
| bf_node_list existing d network err :
    existingRead e w existing ->
    getEtcdDiscoveryDomain e = Ok d ->
    networkListerGet e = Ok network ->
    nodeListerList e = Err err ->
    builderFailure e w
      (Errorf ("unable to list expected etcd member nodes: " +:+ errMsg err))
| bf_node_loop existing d network nodes err :
    existingRead e w existing ->
    getEtcdDiscoveryDomain e = Ok d ->
    networkListerGet e = Ok network ->
    nodeListerList e = Ok nodes ->
    nodeLoopFailure e d network nodes err ->
    builderFailure e w err
| bf_no_addresses existing subset0 rest d :
    existingRead e w existing ->
    Subsets existing = subset0 :: rest ->
    membersResolved e d [] ->
    firstBootstrap (Addresses subset0) = None ->
    builderFailure e w (Errorf "no etcd member nodes are ready").

(** The conditions [sync] reports. *)
Definition degradedCondition (err : error) : OperatorCondition :=
  {| Type_ := "HostEndpointsDegraded";
     Status := ConditionTrue;
     Reason := "ErrorUpdatingHostEndpoints";
     Message := errMsg err |}.

Definition healthyCondition : OperatorCondition :=
  {| Type_ := "HostEndpointsDegraded";
     Status := ConditionFalse;
     Reason := "HostEndpointsUpdated";
     Message := "" |}.

(** ** Example clusters

    A cluster with discovery domain [example.com]: the preferred address
    of a node is its first internal IP, and [records] lists each SRV
    target with the address it resolves to. *)

Definition exampleEnv (nodes : list Node.t) (records : list (string * string))
    (statusFault : option error) : env :=
  {| TargetNamespace := "openshift-etcd";
     endpointsListerFault := None;
     infrastructureListerGet := Ok {| EtcdDiscoveryDomain := "example.com" |};
     networkListerGet := Ok {| ServiceNetwork := ["172.30.0.0/16"] |};
     nodeListerList := Ok nodes;
     GetPreferredInternalIPAddressForNodeName := fun _ node =>
       match Node.InternalIPs node with
       | ip :: _ => Ok ip
       | [] => Err (Errorf "no internal address")
       end;
     LookupSRV := fun service proto name =>
       if String.eqb service "etcd-server-ssl" && String.eqb proto "tcp"
          && String.eqb name "example.com"
       then Ok (map (fun r => {| Target := fst r; SrvPort := 2380 |}) records)
       else Err (Errorf "no such host");
     LookupHost := fun target =>
       match List.find (fun r => String.eqb (fst r) target) records with
       | Some r => Ok [snd r]
       | None => Err (Errorf "no such host")
       end;
     endpointsCreateFault := fun _ => None;
     endpointsUpdateFault := fun _ => None;
     updateStatusFault := fun _ => statusFault;
     JSONPatchNoError := fun _ _ => "{}" |}.

(** A world in which [host-etcd] is published with the given addresses. *)
Definition exampleWorld (addresses : list EndpointAddress) : world :=
  {| published := Some (desiredEndpoints (exampleEnv [] [] None) "example.com" addresses);
     conditions := ∅;
     calls := [] |}.

(** A world in which [host-etcd] is missing. *)
Definition emptyWorld : world :=
  {| published := None; conditions := ∅; calls := [] |}.

Definition master0 : Node.t := Node.mk "master-0" ["10.0.0.1"].

Definition member0 : EndpointAddress :=
  {| IP := "10.0.0.1"; Hostname := "etcd-0"; NodeName := Some "master-0" |}.

Definition bootstrapAddress : EndpointAddress :=
  {| IP := "10.0.0.9"; Hostname := "etcd-bootstrap"; NodeName := None |}.

Definition bootstrapAddress2 : EndpointAddress :=
  {| IP := "10.0.0.8"; Hostname := "etcd-bootstrap"; NodeName := None |}.

Definition bootstrapAddress3 : EndpointAddress :=
  {| IP := "10.0.0.7"; Hostname := "etcd-bootstrap"; NodeName := None |}.

(** An address of a node that shares IP and hostname with the bootstrap. *)
Definition bootstrapTwin : EndpointAddress :=
  {| IP := "10.0.0.9"; Hostname := "etcd-bootstrap"; NodeName := Some "master-0" |}.

(** One master whose SRV target is [etcd-0.example.com.]. *)
Definition oneMemberEnv : env :=
  exampleEnv [master0] [("etcd-0.example.com.", "10.0.0.1")] None.

(** One master whose SRV target is [etcd-bootstrap.example.com.]. *)
Definition bootstrapNamedEnv : env :=
  exampleEnv [master0] [("etcd-bootstrap.example.com.", "10.0.0.1")] None.

(** No master node at all. *)
Definition noMemberEnv : env := exampleEnv [] [] None.

(** The SRV targets of the DNS matching example. *)
Definition abEnv : env :=
  exampleEnv [master0]
    [("a.example.com.", "10.0.0.1"); ("b.example.com.", "10.0.0.2")] None.

(** The operator status cannot be written. *)
Definition statusFaultEnv : env :=
  exampleEnv [master0] [("etcd-0.example.com.", "10.0.0.1")]
    (Some (Errorf "status update conflict")).

(** The infrastructure object has no discovery domain. *)
Definition noDomainEnv (statusFault : option error) : env :=
  {| TargetNamespace := "openshift-etcd";
     endpointsListerFault := None;
     infrastructureListerGet := Ok {| EtcdDiscoveryDomain := "" |};
     networkListerGet := Ok {| ServiceNetwork := [] |};
     nodeListerList := Ok [master0];
     GetPreferredInternalIPAddressForNodeName := fun _ _ => Ok "10.0.0.1";
     LookupSRV := fun _ _ _ => Ok [];
     LookupHost := fun _ => Ok [];
     endpointsCreateFault := fun _ => None;
     endpointsUpdateFault := fun _ => None;
     updateStatusFault := fun _ => statusFault;
     JSONPatchNoError := fun _ _ => "{}" |}.

(** A published object with two subsets and three bootstrap entries. *)
Definition twoSubsetEndpoints : Endpoints :=
  {| Meta := Meta (desiredEndpoints oneMemberEnv "example.com" []);
     Subsets :=
       [ {| Addresses := [bootstrapAddress; bootstrapAddress2];
            NotReadyAddresses := [];
            Ports := [ {| PortName := "etcd"; Port := 2379; Protocol := "TCP" |} ] |};
         {| Addresses := [bootstrapAddress3];
            NotReadyAddresses := [];
            Ports := [ {| PortName := "etcd"; Port := 2379; Protocol := "TCP" |} ] |} ] |}.

Definition twoSubsetWorld : world :=
  {| published := Some twoSubsetEndpoints; conditions := ∅; calls := [] |}.

(** A published object without any subset. *)
Definition noSubsetWorld : world :=
  {| published := Some {| Meta := Meta (hostEndpointsAsset oneMemberEnv);
                          Subsets := [] |};
     conditions := ∅;
     calls := [] |}.

(** ** The work queue loop (lines 347-389) *)

(** [workQueueKey] *)
Definition workQueueKey : string := "key".

(** Calls on the rate-limited work queue and on [utilruntime], in the
    order they are made. *)
Inductive queueCall :=
| QueueAdd (key : string)
| QueueDone (key : string)
| QueueForget (key : string)
| QueueAddRateLimited (key : string)
| HandleError (err : error).

#[global] Instance queueCall_eq_dec : EqDecision queueCall.
Proof. solve_decision. Defined.

(** The controller at run time: the world its reconciles act on and the
    trace of its queue calls. *)
Record controller := mkController {
  theWorld : world;
  queueCalls : list queueCall
}.

(** The informer events the controller registers for. *)
Inductive resourceEvent := AddEvent | UpdateEvent | DeleteEvent.

(** [eventHandler]: every event queues the one work key. *)
Definition eventHandler (ev : resourceEvent) (c : controller) : controller :=
  match ev with
  | AddEvent | UpdateEvent | DeleteEvent =>
      {| theWorld := theWorld c;
         queueCalls := queueCalls c ++ [QueueAdd workQueueKey] |}
  end.

(** [processNextWorkItem], given what [c.queue.Get()] returned.  The
    deferred [Done] runs on every return after the quit test, and also
    while a panic of [sync] unwinds. *)
Definition processNextWorkItem (e : env) (got : string * bool) (c : controller)
  : res bool * controller :=
  let '(dsKey, quit) := got in
  if quit then (Val false, c)
  else
    match sync e (theWorld c) with
    | (Panics p, w') =>
        (Panics p,
         {| theWorld := w'; queueCalls := queueCalls c ++ [QueueDone dsKey] |})
    | (Val None, w') =>
        (Val true,
         {| theWorld := w';
            queueCalls := queueCalls c ++ [QueueForget dsKey; QueueDone dsKey] |})
    | (Val (Some err), w') =>
        (Val true,
         {| theWorld := w';
            queueCalls := queueCalls c ++
              [HandleError (Errorf (dsKey +:+ " failed with : " +:+ errMsg err));
               QueueAddRateLimited dsKey;
               QueueDone dsKey] |})
    end.

(** How a worker ends on a finite sequence of [Get] results: the queue
    reported shutdown, [Get] blocks for want of a further item, or a
    reconcile panicked. *)
Inductive workerOutcome :=
| WorkerStopped
| WorkerBlocked
| WorkerPanicked (p : panic).

(** [runWorker]: [for c.processNextWorkItem() {}], over the successive
    results of [c.queue.Get()]. *)
Fixpoint runWorker (e : env) (gets : list (string * bool)) (c : controller)
  : workerOutcome * controller :=
  match gets with
  | [] => (WorkerBlocked, c)
  | got :: gets' =>
      match processNextWorkItem e got c with
      | (Val true, c') => runWorker e gets' c'
      | (Val false, c') => (WorkerStopped, c')
      | (Panics p, c') => (WorkerPanicked p, c')
      end
  end.

(** ** Vocabulary of the further properties *)

(** The forward lookup of an SRV target succeeds and contains [ip]. *)
Definition resolvesTo (e : env) (ip : string) (srv : SRV) : bool :=
  match LookupHost e (Target srv) with
  | Ok addrs => bool_decide (ip ∈ addrs)
  | Err _ => false
  end.

(** The forward lookup of an SRV target succeeds. *)
Definition resolvable (e : env) (srv : SRV) : Prop :=
  exists addrs, LookupHost e (Target srv) = Ok addrs.

(** The final test of [reverseLookup] on the recorded target. *)
Definition selfOrError (selfTarget : string) : result string :=
  if String.eqb selfTarget "" then Err (Errorf "could not find self")
  else Ok selfTarget.

(** The queue calls of one processed item, by the outcome of [sync]. *)
Definition itemCalls (key : string) (outcome : option error) : list queueCall :=
  match outcome with
  | None => [QueueForget key; QueueDone key]
  | Some err =>
      [HandleError (Errorf (key +:+ " failed with : " +:+ errMsg err));
       QueueAddRateLimited key;
       QueueDone key]
  end.

(** The record the node loop emits for one node. *)
Definition nodeRecord (e : env) (d : string) (network : Network)
    (node : Node.t) (a : EndpointAddress) : Prop :=
  GetPreferredInternalIPAddressForNodeName e network node = Ok (IP a) /\
  IP a <> "" /\
  NodeName a = Some (Node.Name node) /\
  exists dnsName,
    getEtcdDNSName e d (IP a) = Ok dnsName /\
    Hostname a = strings.TrimSuffix dnsName ("." +:+ d).

(** The keys of the [Done] calls of a trace, in order. *)
Definition doneKeys (t : list queueCall) : list string :=
  omap (fun c => match c with QueueDone key => Some key | _ => None end) t.

(** The queue calls that settle an item: forgotten or queued again. *)
Definition settles (c : queueCall) : option string :=
  match c with
  | QueueForget key | QueueAddRateLimited key => Some key
  | _ => None
  end.

(** The conditions of the status writes of a trace, in order. *)
Definition statusReports (t : list call) : list OperatorCondition :=
  omap (fun c => match c with UpdateStatusCall cond => Some cond | _ => None end) t.

(** ** Further example clusters *)

(** The SRV record lists a second target that has no address record. *)
Definition danglingSrvEnv : env :=
  {| TargetNamespace := "openshift-etcd";
     endpointsListerFault := None;
     infrastructureListerGet := Ok {| EtcdDiscoveryDomain := "example.com" |};
     networkListerGet := Ok {| ServiceNetwork := ["172.30.0.0/16"] |};
     nodeListerList := Ok [master0];
     GetPreferredInternalIPAddressForNodeName := fun _ _ => Ok "10.0.0.1";
     LookupSRV := fun _ _ _ =>
       Ok [ {| Target := "etcd-0.example.com."; SrvPort := 2380 |};
            {| Target := "etcd-1.example.com."; SrvPort := 2380 |};
            {| Target := "etcd-2.example.com."; SrvPort := 2380 |} ];
     LookupHost := fun target =>
       if String.eqb target "etcd-0.example.com." then Ok ["10.0.0.1"]
       else Err (Errorf "no such host");
     endpointsCreateFault := fun _ => None;
     endpointsUpdateFault := fun _ => None;
     updateStatusFault := fun _ => None;
     JSONPatchNoError := fun _ _ => "{}" |}.



(** A controller that has made no queue call yet. *)
Definition freshController (w : world) : controller :=
  {| theWorld := w; queueCalls := [] |}.

(** Unfolding of the monadic operations. *)
Ltac unfoldM :=
  unfold mbind, M_bind, mret, M_ret, liftRes, record, store, Warning in *.

(** * Properties *)

(** ** The model on concrete inputs *)

Example Trim_dots : strings.Trim "etcd-0.example.com." "." = "etcd-0.example.com".
Proof. reflexivity. Qed.

Example TrimSuffix_domain :
  strings.TrimSuffix "etcd-0.example.com" ".example.com" = "etcd-0".
Proof. reflexivity. Qed.

Example TrimSuffix_other_domain :
  strings.TrimSuffix "etcd-0.example.org" ".example.com" = "etcd-0.example.org".
Proof. reflexivity. Qed.

Example Slice_sorts :
  sort.Slice newEndpointAddressSliceComparator [bootstrapAddress; member0; bootstrapAddress2]
  = Val [member0; bootstrapAddress2; bootstrapAddress].
Proof. reflexivity. Qed.

Example reverseLookup_member :
  reverseLookup oneMemberEnv "etcd-server-ssl" "tcp" "example.com" "10.0.0.1"
  = Ok "etcd-0.example.com".
Proof. reflexivity. Qed.

Example reverseLookup_stranger :
  reverseLookup oneMemberEnv "etcd-server-ssl" "tcp" "example.com" "10.0.0.7"
  = Err (Errorf "could not find self").
Proof. reflexivity. Qed.

Example first_reconcile_writes_once :
  calls (snd (syncHostEndpoints oneMemberEnv (exampleWorld [bootstrapAddress])))
  = [UpdateCall (desiredEndpoints oneMemberEnv "example.com" [member0; bootstrapAddress]);
     WarningEvent "EndpointsUpdated"
       "Updated endpoints/host-etcd -n openshift-etcd because it changed: {}"].
Proof. vm_compute. reflexivity. Qed.

Example missing_subsets_panic :
  fst (syncHostEndpoints oneMemberEnv noSubsetWorld) = Panics IndexOutOfRange.
Proof. reflexivity. Qed.

(** ** Orders on strings and addresses *)

Lemma ascii_compare_total : total_compare Ascii.compare.
Proof.
  split.
  - intros a b. split; [apply Ascii.compare_eq_iff|].
    intros ->. apply N.compare_refl.
  - intros a b. apply Ascii.compare_antisym.
  - intros a b d. unfold Ascii.compare. rewrite !N.compare_lt_iff. lia.
Qed.

Lemma string_compare_total : total_compare String.compare.
Proof.
  split.
  - intros a b. split; [apply String.compare_eq_iff|].
    intros ->. induction b as [|x b IH]; simpl; [done|].
    by rewrite (proj2 (tc_eq _ ascii_compare_total x x) eq_refl).
  - intros a b. apply String.compare_antisym.
  - intros a. induction a as [|x a IH]; intros [|y b] [|z d]; simpl; try congruence.
    destruct (Ascii.compare x y) eqn:Hxy; try discriminate.
    + apply Ascii.compare_eq_iff in Hxy as ->.
      destruct (Ascii.compare y z); try congruence. apply IH.
    + intros _. destruct (Ascii.compare y z) eqn:Hyz; try discriminate.
      * apply Ascii.compare_eq_iff in Hyz as <-. by rewrite Hxy.
      * by rewrite (tc_trans _ ascii_compare_total _ _ _ Hxy Hyz).
Qed.

Lemma lex_compare_total {A B : Type} (ca : A -> A -> comparison)
    (cb : B -> B -> comparison) :
  total_compare ca -> total_compare cb -> total_compare (lex_compare ca cb).
Proof.
  intros Ha Hb. split.
  - intros [a1 b1] [a2 b2]. unfold lex_compare; simpl.
    destruct (ca a1 a2) eqn:E.
    + apply (tc_eq _ Ha) in E as ->. rewrite (tc_eq _ Hb). naive_solver.
    + split; [done|]. intros [= -> ->].
      assert (ca a2 a2 = Eq) by by apply (tc_eq _ Ha). congruence.
    + split; [done|]. intros [= -> ->].
      assert (ca a2 a2 = Eq) by by apply (tc_eq _ Ha). congruence.
  - intros [a1 b1] [a2 b2]. unfold lex_compare; simpl.
    rewrite (tc_antisym _ Ha a1 a2). destruct (ca a1 a2); simpl; try done.
    apply (tc_antisym _ Hb).
  - intros [a1 b1] [a2 b2] [a3 b3]. unfold lex_compare; simpl.
    destruct (ca a1 a2) eqn:E12; try discriminate.
    + apply (tc_eq _ Ha) in E12 as ->.
      destruct (ca a2 a3); try done. apply (tc_trans _ Hb).
    + intros _. destruct (ca a2 a3) eqn:E23; try discriminate.
      * apply (tc_eq _ Ha) in E23 as <-. by rewrite E12.
      * by rewrite (tc_trans _ Ha _ _ _ E12 E23).
Qed.

Lemma node_compare_total : total_compare node_compare.
Proof.
  pose proof string_compare_total as Hs. split.
  - intros [a|] [b|]; simpl; try (split; congruence).
    rewrite (tc_eq _ Hs). naive_solver.
  - intros [a|] [b|]; simpl; try done. apply (tc_antisym _ Hs).
  - intros [a|] [b|] [d|]; simpl; try done. apply (tc_trans _ Hs).
Qed.

(** A total comparison gives a total order [cle]. *)
Section total.
Context {A : Type} (c : A -> A -> comparison) (Hc : total_compare c).

Lemma tc_gt_lt a b : c a b = Gt <-> c b a = Lt.
Proof. rewrite (tc_antisym _ Hc a b). destruct (c a b); simpl; naive_solver. Qed.

Lemma cle_trans a b d : cle c a b -> cle c b d -> cle c a d.
Proof.
  unfold cle. intros H1 H2 H3.
  destruct (c a b) eqn:Eab; [| |done].
  - apply (tc_eq _ Hc) in Eab as ->. done.
  - destruct (c b d) eqn:Ebd; [| |done].
    + apply (tc_eq _ Hc) in Ebd as ->. congruence.
    + pose proof (tc_trans _ Hc _ _ _ Eab Ebd). congruence.
Qed.

Lemma cle_antisym a b : cle c a b -> cle c b a -> a = b.
Proof.
  unfold cle. rewrite (tc_gt_lt b a). intros H1 H2.
  apply (tc_eq _ Hc). destruct (c a b); done.
Qed.

Lemma not_lt_cle a b : c a b <> Lt -> cle c b a.
Proof. unfold cle. by rewrite tc_gt_lt. Qed.

Lemma lt_cle a b : c a b = Lt -> cle c a b.
Proof. unfold cle. congruence. Qed.
End total.

(** The index-based insertion sort of [sort.Slice] computes the insertion
    of each element into the sorted prefix, for any comparator that only
    depends on the two elements it reads. *)
Section insertion.
Context {A : Type}.
Variable less : list A -> nat -> nat -> res bool.
Variable lessV : A -> A -> res bool.
Hypothesis less_lookup : forall data i j a b,
  data !! i = Some a -> data !! j = Some b -> less data i j = lessV a b.

Lemma insertLeft_length x rp r : insertLeft lessV x rp = Val r -> length r = S (length rp).
Proof.
  revert r. induction rp as [|y rp IH]; simpl; intros r.
  - by intros [= <-].
  - destruct (lessV x y) as [[|]|]; simpl; try done.
    + destruct (insertLeft lessV x rp) as [r'|]; simpl; try done.
      intros [= <-]. simpl. by rewrite (IH r').
    + by intros [= <-].
Qed.

Lemma swap_adjacent (pre post : list A) x y :
  sort.swap (pre ++ y :: x :: post) (S (length pre)) (length pre)
  = pre ++ x :: y :: post.
Proof.
  unfold sort.swap.
  rewrite (list_lookup_middle pre (x :: post) y (length pre)) by done.
  replace (pre ++ y :: x :: post) with ((pre ++ [y]) ++ x :: post)
    by by rewrite <- app_assoc.
  rewrite (list_lookup_middle (pre ++ [y]) post x (S (length pre)))
    by (rewrite length_app; simpl; lia).
  rewrite <- app_assoc. simpl.
  rewrite !insert_app_r_alt by (try rewrite length_insert; lia).
  rewrite Nat.sub_diag. replace (S (length pre) - length pre) with 1 by lia.
  done.
Qed.

Lemma insertionInner_insertLeft rp x post :
  sort.insertionInner less (reverse rp ++ x :: post) (length rp)
  = r ← insertLeft lessV x rp; Val (reverse r ++ post).
Proof.
  revert post. induction rp as [|y rp IH]; intros post; simpl.
  - done.
  - rewrite reverse_cons, <- app_assoc. simpl.
    rewrite (less_lookup _ _ _ x y).
    + destruct (lessV x y) as [[|]|]; simpl; try done.
      * rewrite <- (length_reverse rp), swap_adjacent, length_reverse, IH.
        destruct (insertLeft lessV x rp) as [r|]; simpl; try done.
        by rewrite reverse_cons, <- app_assoc.
      * by rewrite !reverse_cons, <- !app_assoc.
    + replace (reverse rp ++ y :: x :: post) with ((reverse rp ++ [y]) ++ x :: post)
        by by rewrite <- app_assoc.
      apply list_lookup_middle. rewrite length_app, length_reverse. simpl. lia.
    + apply list_lookup_middle. by rewrite length_reverse.
Qed.

Lemma insertionOuter_insertAll rp rest :
  sort.insertionOuter less (reverse rp ++ rest) (length rp) (length rest)
  = insertAll lessV rp rest.
Proof.
  revert rp. induction rest as [|x rest IH]; intros rp; simpl.
  - by rewrite app_nil_r.
  - rewrite insertionInner_insertLeft.
    destruct (insertLeft lessV x rp) as [r|] eqn:E; simpl; try done.
    rewrite <- (insertLeft_length _ _ _ E). apply IH.
Qed.

Lemma Slice_insertAll data : sort.Slice less data = insertAll lessV [] data.
Proof.
  unfold sort.Slice. destruct data as [|x rest]; simpl; [done|].
  rewrite Nat.sub_0_r. apply (insertionOuter_insertAll [x] rest).
Qed.
End insertion.

Lemma comparator_lookup data i j a b :
  data !! i = Some a -> data !! j = Some b ->
  newEndpointAddressSliceComparator data i j = lessAddress a b.
Proof.
  intros Hi Hj. unfold newEndpointAddressSliceComparator, index.
  by rewrite Hi, Hj.
Qed.

Lemma key_compare_total : total_compare key_compare.
Proof. apply lex_compare_total; apply string_compare_total. Qed.

Lemma addr_compare_total : total_compare addr_compare.
Proof.
  pose proof (lex_compare_total _ _ key_compare_total node_compare_total) as H.
  split.
  - intros a b. unfold addr_compare. rewrite (tc_eq _ H).
    destruct a, b; unfold key; simpl. naive_solver.
  - intros a b. apply (tc_antisym _ H).
  - intros a b d. apply (tc_trans _ H).
Qed.

Lemma string_eqb_compare x y : String.eqb x y = true <-> String.compare x y = Eq.
Proof. rewrite String.eqb_eq. symmetry. apply (tc_eq _ string_compare_total). Qed.

Lemma nilTie_sym a b : nilTie a b -> nilTie b a.
Proof. intros [Hk [Hn|Hn]]; (split; [done|]); [by right|by left]. Qed.

Lemma is_lt_decide (c : comparison) :
  (if c is Lt then true else false) = bool_decide (c = Lt).
Proof. by destruct c. Qed.

(** Away from nil ties the comparator is the strict order of
    [addr_compare]. *)
Lemma lessAddress_val a b :
  ~ nilTie a b -> lessAddress a b = Val (bool_decide (addr_compare a b = Lt)).
Proof.
  intros Hn. unfold lessAddress, addr_compare, lex_compare, key_compare, lex_compare.
  simpl. unfold String.ltb.
  destruct (String.eqb (IP a) (IP b)) eqn:Eip; simpl.
  - apply string_eqb_compare in Eip as Eip'. rewrite Eip'.
    destruct (String.eqb (Hostname a) (Hostname b)) eqn:Eh; simpl.
    + apply string_eqb_compare in Eh as Eh'. rewrite Eh'.
      apply String.eqb_eq in Eip, Eh.
      destruct (NodeName a) as [na|] eqn:Ea, (NodeName b) as [nb|] eqn:Eb; simpl.
      * by rewrite is_lt_decide.
      * destruct Hn. split; [unfold key; congruence | by right].
      * destruct Hn. split; [unfold key; congruence | by left].
      * destruct Hn. split; [unfold key; congruence | by left].
    + assert (String.compare (Hostname a) (Hostname b) <> Eq) as Hne.
      { rewrite <- string_eqb_compare. congruence. }
      rewrite is_lt_decide. f_equal.
      by destruct (String.compare (Hostname a) (Hostname b)).
  - assert (String.compare (IP a) (IP b) <> Eq) as Hne.
    { rewrite <- string_eqb_compare. congruence. }
    rewrite is_lt_decide. f_equal.
    by destruct (String.compare (IP a) (IP b)).
Qed.

Lemma lessAddress_nilTie a b :
  nilTie a b -> lessAddress a b = Panics NilPointerDereference.
Proof.
  intros [[= Hip Hh] Hnil]. unfold lessAddress.
  rewrite Hip, Hh, !String.eqb_refl. simpl.
  destruct (NodeName a), (NodeName b); simpl; try done; by destruct Hnil.
Qed.

(** The comparator panics exactly on nil ties. *)
Lemma lessAddress_panics a b p :
  lessAddress a b = Panics p <-> p = NilPointerDereference /\ nilTie a b.
Proof.
  split.
  - intros H. destruct (decide (nilTie a b)) as [Ht|Ht].
    + rewrite (lessAddress_nilTie _ _ Ht) in H. naive_solver.
    + by rewrite (lessAddress_val _ _ Ht) in H.
  - intros [-> Ht]. by apply lessAddress_nilTie.
Qed.

Lemma addr_le_key a b : addr_le a b -> cle key_compare (key a) (key b).
Proof.
  unfold addr_le, cle, addr_compare, lex_compare. simpl.
  by destruct (key_compare (key a) (key b)).
Qed.

Lemma key_sandwich x y z :
  addr_le z y -> addr_le y x -> key x = key z -> key y = key x.
Proof.
  intros Hzy Hyx Hk. apply addr_le_key in Hzy, Hyx. rewrite <- Hk in Hzy.
  by apply (cle_antisym _ key_compare_total).
Qed.

Lemma nilTieFree_app l1 l2 :
  nilTieFree (l1 ++ l2) <->
  nilTieFree l1 /\ nilTieFree l2 /\
  Forall (fun a => Forall (fun b => ~ nilTie a b) l2) l1.
Proof.
  induction l1 as [|a l1 IH]; simpl.
  - rewrite Forall_nil. tauto.
  - rewrite Forall_app, Forall_cons, IH. tauto.
Qed.

Lemma nilTieFree_perm l1 l2 : l1 ≡ₚ l2 -> nilTieFree l1 -> nilTieFree l2.
Proof.
  induction 1 as [|a l1 l2 Hp IH|a b l|l1 l2 l3 _ IH1 _ IH2]; simpl; try tauto.
  - intros [Ha Hl]. split; [by rewrite <- Hp | auto].
  - rewrite !Forall_cons. intros [[Hab Hb] [Ha Hl]].
    split_and!; try done. intros Ht. by apply Hab, nilTie_sym.
Qed.

(** Inserting into a sorted prefix succeeds when the new element forms
    no nil tie with it, and keeps it sorted. *)
Lemma insertLeft_ok x rp :
  Forall (fun y => ~ nilTie x y) rp -> descending rp ->
  exists r, insertLeft lessAddress x rp = Val r /\ r ≡ₚ x :: rp /\ descending r.
Proof.
  unfold descending.
  induction rp as [|y rp IH]; simpl; intros Hx Hs.
  - exists [x]. split_and!; [done..|]. repeat constructor.
  - apply Forall_cons in Hx as [Hxy Hx].
    apply StronglySorted_inv in Hs as [Hs Hy].
    rewrite (lessAddress_val _ _ Hxy). simpl. case_bool_decide as Hlt.
    + destruct (IH Hx Hs) as (r & -> & Hp & Hr). simpl.
      exists (y :: r). split_and!; [done| |].
      * rewrite Hp. apply perm_swap.
      * constructor; [done|]. rewrite Hp. constructor; [|done].
        by apply lt_cle.
    + exists (x :: y :: rp). split_and!; [done..|].
      apply (not_lt_cle _ addr_compare_total) in Hlt.
      constructor; [by constructor|]. constructor; [done|].
      eapply Forall_impl; [exact Hy|]. simpl. intros z Hz.
      by apply (cle_trans _ addr_compare_total _ y).
Qed.

Lemma insertLeft_panic x rp p :
  insertLeft lessAddress x rp = Panics p -> p = NilPointerDereference.
Proof.
  induction rp as [|y rp IH]; simpl; [done|].
  destruct (lessAddress x y) as [[|]|q] eqn:E; simpl.
  - destruct (insertLeft lessAddress x rp); simpl; [done|].
    intros [= <-]. by apply IH.
  - done.
  - intros [= <-]. by apply lessAddress_panics in E as [-> _].
Qed.

(** Conversely a successful insertion shows that the new element forms
    no nil tie with the prefix: equal keys are adjacent in a sorted
    prefix, so a tie is met by a comparison. *)
Lemma insertLeft_inv x rp r :
  descending rp -> nilTieFree rp ->
  insertLeft lessAddress x rp = Val r -> Forall (fun y => ~ nilTie x y) rp.
Proof.
  unfold descending. revert r.
  induction rp as [|y rp IH]; simpl; intros r Hs Hf; [by constructor|].
  apply StronglySorted_inv in Hs as [Hs Hy]. destruct Hf as [Hyf Hf].
  destruct (decide (nilTie x y)) as [Ht|Hxy].
  { by rewrite (lessAddress_nilTie _ _ Ht). }
  rewrite (lessAddress_val _ _ Hxy). simpl. case_bool_decide as Hlt.
  - destruct (insertLeft lessAddress x rp) as [r'|] eqn:E; simpl; [|done].
    intros _. constructor; [done|]. by apply (IH r').
  - intros _. constructor; [done|].
    apply (not_lt_cle _ addr_compare_total) in Hlt.
    rewrite Forall_forall in Hy, Hyf. apply Forall_forall. intros z Hz [Hk Hn].
    pose proof (key_sandwich x y z (Hy z Hz) Hlt Hk) as Hky.
    assert (NodeName x <> None /\ NodeName y <> None) as [Hnx Hny].
    { split; intros Hnone; apply Hxy; (split; [done|]); [by left|by right]. }
    apply (Hyf z Hz). split; [congruence|]. right. by destruct Hn.
Qed.

Lemma descending_reverse rp : descending rp -> StronglySorted addr_le (reverse rp).
Proof.
  unfold descending. induction 1 as [|y rp Hs IH Hy]; [constructor|].
  rewrite reverse_cons. apply StronglySorted_app_2; [|done|repeat constructor].
  intros a b Ha Hb. apply list_elem_of_singleton in Hb as ->.
  rewrite Forall_forall in Hy. apply Hy. by apply elem_of_reverse.
Qed.

Lemma nilTieFree_move x rp rest :
  nilTieFree (rp ++ x :: rest) <-> nilTieFree ((x :: rp) ++ rest).
Proof.
  split; apply nilTieFree_perm; simpl;
    [symmetry|]; apply Permutation_middle.
Qed.

Lemma insertAll_ok rp rest :
  descending rp -> nilTieFree (rp ++ rest) ->
  exists s, insertAll lessAddress rp rest = Val s /\
            s ≡ₚ reverse rp ++ rest /\ StronglySorted addr_le s.
Proof.
  revert rp. induction rest as [|x rest IH]; simpl; intros rp Hs Hf.
  - exists (reverse rp). rewrite app_nil_r. split_and!; [done..|].
    by apply descending_reverse.
  - apply nilTieFree_move in Hf. pose proof Hf as [Hx _].
    apply Forall_app in Hx as [Hx _].
    destruct (insertLeft_ok x rp Hx Hs) as (r & -> & Hp & Hr). simpl.
    destruct (IH r Hr) as (s & -> & Hps & Hss).
    { by apply (nilTieFree_perm ((x :: rp) ++ rest)); [rewrite Hp|]. }
    exists s. split_and!; [done| |done].
    rewrite Hps, !reverse_Permutation, Hp. simpl. apply Permutation_middle.
Qed.

Lemma insertAll_inv rp rest s :
  descending rp -> nilTieFree rp ->
  insertAll lessAddress rp rest = Val s -> nilTieFree (rp ++ rest).
Proof.
  revert rp. induction rest as [|x rest IH]; simpl; intros rp Hs Hf.
  - by rewrite app_nil_r.
  - destruct (insertLeft lessAddress x rp) as [r|] eqn:E; simpl; [|done].
    intros Hall. pose proof (insertLeft_inv x rp r Hs Hf E) as Hx.
    destruct (insertLeft_ok x rp Hx Hs) as (r' & E' & Hp & Hr).
    rewrite E in E'. injection E' as <-.
    apply nilTieFree_move, (nilTieFree_perm (r ++ rest)); [by rewrite Hp|].
    apply IH; [done| |done].
    apply (nilTieFree_perm (x :: rp)); [done|]. by split.
Qed.

Lemma insertAll_panic rp rest p :
  insertAll lessAddress rp rest = Panics p -> p = NilPointerDereference.
Proof.
  revert rp. induction rest as [|x rest IH]; simpl; intros rp; [done|].
  destruct (insertLeft lessAddress x rp) as [r|q] eqn:E; simpl.
  - apply IH.
  - intros [= <-]. by apply insertLeft_panic in E.
Qed.

Lemma sortAddresses_insertAll l : sortAddresses l = insertAll lessAddress [] l.
Proof. apply Slice_insertAll, comparator_lookup. Qed.

(** Sorting a slice without nil ties yields its sorted permutation. *)
Lemma sortAddresses_ok l :
  nilTieFree l ->
  exists s, sortAddresses l = Val s /\ s ≡ₚ l /\ StronglySorted addr_le s.
Proof.
  intros Hf. rewrite sortAddresses_insertAll.
  apply (insertAll_ok [] l); [constructor|done].
Qed.

Lemma sortAddresses_val_inv l s : sortAddresses l = Val s -> nilTieFree l.
Proof.
  rewrite sortAddresses_insertAll. intros H.
  by apply (insertAll_inv [] l s) in H; [|constructor|].
Qed.

(** Sorting panics exactly on slices with a nil tie. *)
Lemma sortAddresses_panics l p :
  sortAddresses l = Panics p <-> p = NilPointerDereference /\ ~ nilTieFree l.
Proof.
  split.
  - intros H. split.
    + rewrite sortAddresses_insertAll in H. by apply insertAll_panic in H.
    + intros Hf. destruct (sortAddresses_ok l Hf) as (s & Hs & _). congruence.
  - intros [-> Hf]. destruct (sortAddresses l) as [s|p] eqn:E.
    + by apply sortAddresses_val_inv in E.
    + rewrite sortAddresses_insertAll in E. by apply insertAll_panic in E as ->.
Qed.

Lemma addr_le_antisym a b : addr_le a b -> addr_le b a -> a = b.
Proof. apply (cle_antisym _ addr_compare_total). Qed.

(** Two orderings of the same addresses sort to the same slice. *)
Lemma sortAddresses_perm l1 l2 :
  nilTieFree l1 -> l1 ≡ₚ l2 ->
  exists s, sortAddresses l1 = Val s /\ sortAddresses l2 = Val s.
Proof.
  intros Hf Hp.
  destruct (sortAddresses_ok l1 Hf) as (s1 & E1 & Hp1 & Hs1).
  destruct (sortAddresses_ok l2 (nilTieFree_perm _ _ Hp Hf)) as (s2 & E2 & Hp2 & Hs2).
  exists s1. split; [done|]. rewrite E2. f_equal.
  apply (StronglySorted_unique_strong addr_le); [|done..|by rewrite Hp2, Hp1].
  intros x1 x2 _ _. apply addr_le_antisym.
Qed.

Lemma endpointSubsetEqual_sorts lhs rhs :
  length (Addresses lhs) = length (Addresses rhs) ->
  length (NotReadyAddresses lhs) = length (NotReadyAddresses rhs) ->
  length (Ports lhs) = length (Ports rhs) ->
  endpointSubsetEqual lhs rhs =
    lhsSorted ← sortAddresses (Addresses lhs);
    rhsSorted ← sortAddresses (Addresses rhs);
    Val (DeepEqual lhsSorted rhsSorted).
Proof.
  intros Ha Hn Hp. unfold endpointSubsetEqual.
  rewrite Ha, Hn, Hp, !Nat.eqb_refl. simpl.
  rewrite <- Ha at 1. by rewrite !firstn_all.
Qed.

(** Order independence of the subset comparison, away from nil ties:
    subsets holding the same addresses in any order, with as many
    not-ready addresses and ports, compare equal. *)
Lemma endpointSubsetEqual_perm lhs rhs :
  Addresses lhs ≡ₚ Addresses rhs ->
  nilTieFree (Addresses lhs) ->
  length (NotReadyAddresses lhs) = length (NotReadyAddresses rhs) ->
  length (Ports lhs) = length (Ports rhs) ->
  endpointSubsetEqual lhs rhs = Val true.
Proof.
  intros Hp Hf Hn Hports.
  rewrite endpointSubsetEqual_sorts; [|by apply Permutation_length|done..].
  destruct (sortAddresses_perm _ _ Hf Hp) as (s & -> & ->). simpl.
  unfold DeepEqual. by rewrite bool_decide_eq_true_2.
Qed.

(** The subset comparison panics exactly when the three length tests
    pass and one side has a nil tie. *)
Lemma endpointSubsetEqual_panics lhs rhs p :
  endpointSubsetEqual lhs rhs = Panics p <->
  p = NilPointerDereference /\
  length (Addresses lhs) = length (Addresses rhs) /\
  length (NotReadyAddresses lhs) = length (NotReadyAddresses rhs) /\
  length (Ports lhs) = length (Ports rhs) /\
  ~ (nilTieFree (Addresses lhs) /\ nilTieFree (Addresses rhs)).
Proof.
  destruct (decide (length (Addresses lhs) = length (Addresses rhs))) as [Ha|Ha];
    [|unfold endpointSubsetEqual; rewrite (proj2 (Nat.eqb_neq _ _) Ha); simpl;
      split; [done|tauto]].
  destruct (decide (length (NotReadyAddresses lhs) = length (NotReadyAddresses rhs)))
    as [Hn|Hn];
    [|unfold endpointSubsetEqual; rewrite (proj2 (Nat.eqb_neq _ _) Hn);
      rewrite Ha, Nat.eqb_refl; simpl; split; [done|tauto]].
  destruct (decide (length (Ports lhs) = length (Ports rhs))) as [Hp|Hp];
    [|unfold endpointSubsetEqual; rewrite (proj2 (Nat.eqb_neq _ _) Hp);
      rewrite Ha, Hn, !Nat.eqb_refl; simpl; split; [done|tauto]].
  rewrite endpointSubsetEqual_sorts by done.
  destruct (sortAddresses (Addresses lhs)) as [l|q] eqn:El; simpl.
  - apply sortAddresses_val_inv in El as Hl.
    destruct (sortAddresses (Addresses rhs)) as [r|q] eqn:Er; simpl.
    + apply sortAddresses_val_inv in Er. split; [done|tauto].
    + apply sortAddresses_panics in Er as [-> Hr].
      split; [intros [= <-]; tauto | by intros [-> _]].
  - apply sortAddresses_panics in El as [-> Hl].
    split; [intros [= <-]; tauto | by intros [-> _]].
Qed.

Lemma endpointsSubsetsEqualLoop_panics lhs rhs p :
  length lhs = length rhs ->
  endpointsSubsetsEqualLoop lhs rhs = Panics p -> p = NilPointerDereference.
Proof.
  revert rhs. induction lhs as [|l lhs IH]; intros [|r rhs]; simpl; try done.
  intros [= Hlen]. destruct (endpointSubsetEqual l r) as [[|]|q] eqn:E; simpl.
  - by apply IH.
  - done.
  - intros [= <-]. by apply endpointSubsetEqual_panics in E as [-> _].
Qed.

Lemma endpointsSubsetsEqual_panics lhs rhs p :
  endpointsSubsetsEqual lhs rhs = Panics p -> p = NilPointerDereference.
Proof.
  unfold endpointsSubsetsEqual.
  destruct (length lhs =? length rhs)%nat eqn:E; simpl; [|done].
  apply Nat.eqb_eq in E. by apply endpointsSubsetsEqualLoop_panics.
Qed.

Lemma endpointsSubsetsEqual_refl l :
  Forall (fun s => nilTieFree (Addresses s)) l ->
  endpointsSubsetsEqual l l = Val true.
Proof.
  unfold endpointsSubsetsEqual. rewrite Nat.eqb_refl. simpl.
  induction 1 as [|s l Hs _ IH]; simpl; [done|].
  by rewrite endpointSubsetEqual_perm.
Qed.

(** ** The controller *)

Lemma SetStringIfSet_idem m existing required b s :
  resourcemerge.SetStringIfSet m existing required = (b, s) ->
  resourcemerge.SetStringIfSet false s required = (false, s).
Proof.
  unfold resourcemerge.SetStringIfSet.
  destruct (String.length required =? 0)%nat; [by intros [= _ <-]|].
  destruct (String.eqb required existing) eqn:E; simpl.
  - intros [= _ <-]. by rewrite E.
  - intros [= _ <-]. by rewrite String.eqb_refl.
Qed.

Lemma MergeMap_idem m existing required b merged :
  resourcemerge.MergeMap m existing required = (b, merged) ->
  resourcemerge.MergeMap false merged required = (false, merged).
Proof.
  unfold resourcemerge.MergeMap. intros [= _ <-].
  assert (required ∪ (required ∪ existing) = required ∪ existing) as ->.
  { by rewrite (assoc_L (∪)), (idemp_L (∪)). }
  by rewrite bool_decide_eq_true_2.
Qed.

(** Merging the same required metadata a second time changes nothing. *)
Lemma EnsureObjectMeta_idem m existing required b meta :
  resourcemerge.EnsureObjectMeta m existing required = (b, meta) ->
  resourcemerge.EnsureObjectMeta false meta required = (false, meta).
Proof.
  unfold resourcemerge.EnsureObjectMeta.
  destruct (resourcemerge.SetStringIfSet m (Namespace existing) (Namespace required))
    as [m1 ns] eqn:E1.
  destruct (resourcemerge.SetStringIfSet m1 (Name existing) (Name required))
    as [m2 n] eqn:E2.
  destruct (resourcemerge.MergeMap m2 (Labels existing) (Labels required))
    as [m3 ls] eqn:E3.
  destruct (resourcemerge.MergeMap m3 (Annotations existing) (Annotations required))
    as [m4 an] eqn:E4.
  intros [= _ <-]. cbn [Name Namespace Labels Annotations].
  rewrite (SetStringIfSet_idem _ _ _ _ _ E1), (SetStringIfSet_idem _ _ _ _ _ E2).
  by rewrite (MergeMap_idem _ _ _ _ _ E3), (MergeMap_idem _ _ _ _ _ E4).
Qed.

(** Shape of [applyEndpoints] once the lister has returned [existing]. *)
Lemma applyEndpoints_existing e w required existing :
  existingRead e w existing ->
  applyEndpoints e required w =
    let '(modified, meta) :=
      resourcemerge.EnsureObjectMeta false (Meta existing) (Meta required) in
    match endpointsSubsetsEqual (Subsets existing) (Subsets required) with
    | Panics p => (Panics p, w)
    | Val equal =>
        let toWrite :=
          {| Meta := meta;
             Subsets := if equal then Subsets existing else Subsets required |} in
        if negb equal || modified then
          match endpointsUpdateFault e toWrite with
          | Some err =>
              (Val (Some err),
               {| published := published w; conditions := conditions w;
                  calls := calls w ++
                    [UpdateCall toWrite;
                     WarningEvent "EndpointsUpdateFailed"
                       ("Failed to update endpoints/" +:+ Name (Meta required)
                        +:+ " -n " +:+ Namespace (Meta required) +:+ ": "
                        +:+ errMsg err)] |})
          | None =>
              (Val None,
               {| published := Some toWrite; conditions := conditions w;
                  calls := calls w ++
                    [UpdateCall toWrite;
                     WarningEvent "EndpointsUpdated"
                       ("Updated endpoints/" +:+ Name (Meta required)
                        +:+ " -n " +:+ Namespace (Meta required)
                        +:+ " because it changed: "
                        +:+ JSONPatchNoError e existing toWrite)] |})
          end
        else (Val None, w)
    end.
Proof.
  intros [Hfault Hpub]. unfold applyEndpoints, endpointsListerGet.
  destruct w as [pub conds cs]. simpl in Hpub. subst pub.
  unfoldM. rewrite Hfault. simpl.
  destruct (resourcemerge.EnsureObjectMeta false (Meta existing) (Meta required))
    as [modified meta].
  destruct (endpointsSubsetsEqual (Subsets existing) (Subsets required))
    as [[|]|p]; simpl; [| |done].
  - destruct modified; simpl; [|done].
    unfold endpointsUpdate. unfoldM. simpl.
    destruct (endpointsUpdateFault e _); simpl; by rewrite <- app_assoc.
  - unfold endpointsUpdate. unfoldM. simpl.
    destruct (endpointsUpdateFault e _); simpl; by rewrite <- app_assoc.
Qed.

Lemma keepBootstrap_firstBootstrap l acc :
  keepBootstrap l acc = acc ++ option_list (firstBootstrap l).
Proof.
  unfold firstBootstrap. induction l as [|a l IH]; simpl.
  - by rewrite app_nil_r.
  - by destruct (String.eqb (Hostname a) "etcd-bootstrap").
Qed.

Lemma string_length_zero s : (String.length s =? 0)%nat = true <-> s = "".
Proof. destruct s; simpl; split; done. Qed.

Lemma string_length_nonzero s : s <> "" -> (String.length s =? 0)%nat = false.
Proof. by destruct s. Qed.

(** The node loop runs through a prefix of nodes that all resolve. *)
Lemma nodeEndpointAddresses_app e d network pre rest acc :
  Forall (nodeResolves e d network) pre ->
  exists acc',
    nodeEndpointAddresses e d network (pre ++ rest) acc
    = nodeEndpointAddresses e d network rest acc'.
Proof.
  intros H. revert acc. induction H as [|node pre Hn _ IH]; intros acc; simpl.
  - by exists acc.
  - destruct Hn as (ip & dns & -> & Hip & ->).
    rewrite (string_length_nonzero _ Hip). apply IH.
Qed.

Lemma nodeLoopFailure_cons e d network node nodes err :
  nodeResolves e d network node ->
  nodeLoopFailure e d network nodes err ->
  nodeLoopFailure e d network (node :: nodes) err.
Proof.
  intros Hn [pre n post err' -> Hpre Hip|pre n post -> Hpre Hip
            |pre n post ip err' -> Hpre Hip Hne Hdns].
  - by apply (nlf_ip_error _ _ _ _ (node :: pre) n post); [|constructor|].
  - by apply (nlf_ip_missing _ _ _ _ (node :: pre) n post); [|constructor|].
  - by apply (nlf_dns _ _ _ _ (node :: pre) n post ip); [|constructor|..].
Qed.

(** The node loop fails only for one of the causes of
    [nodeLoopFailure], and does fail then. *)
Lemma nodeEndpointAddresses_Err e d network nodes acc err :
  nodeEndpointAddresses e d network nodes acc = Err err ->
  nodeLoopFailure e d network nodes err.
Proof.
  revert acc. induction nodes as [|node nodes IH]; intros acc; simpl; [done|].
  destruct (GetPreferredInternalIPAddressForNodeName e network node)
    as [ip|err'] eqn:Eip.
  - destruct (String.length ip =? 0)%nat eqn:Elen.
    + apply string_length_zero in Elen as ->. intros [= <-].
      by apply (nlf_ip_missing _ _ _ _ [] node nodes).
    + assert (ip <> "") as Hne by (intros ->; done).
      destruct (getEtcdDNSName e d ip) as [dns|err'] eqn:Edns.
      * intros H. apply nodeLoopFailure_cons; [|by eapply IH].
        by exists ip, dns.
      * intros [= <-]. by apply (nlf_dns _ _ _ _ [] node nodes ip).
  - intros [= <-]. by apply (nlf_ip_error _ _ _ _ [] node nodes).
Qed.

Lemma nodeLoopFailure_sound e d network nodes acc err :
  nodeLoopFailure e d network nodes err ->
  nodeEndpointAddresses e d network nodes acc = Err err.
Proof.
  intros [pre n post err' -> Hpre Hip|pre n post -> Hpre Hip
         |pre n post ip err' -> Hpre Hip Hne Hdns];
    destruct (nodeEndpointAddresses_app e d network pre (n :: post) acc Hpre)
      as [acc' ->]; simpl; rewrite Hip; try done.
  by rewrite (string_length_nonzero _ Hne), Hdns.
Qed.

(** The builder stage once every read has succeeded. *)
Lemma syncHostEndpoints_resolved e w existing d members :
  existingRead e w existing ->
  membersResolved e d members ->
  syncHostEndpoints e w =
    match Subsets existing with
    | [] => (Panics IndexOutOfRange, w)
    | subset0 :: _ =>
        let endpointAddresses := keepBootstrap (Addresses subset0) members in
        if decide (endpointAddresses = []) then
          (Val (Some (Errorf "no etcd member nodes are ready")), w)
        else applyEndpoints e (desiredEndpoints e d endpointAddresses) w
    end.
Proof.
  intros [Hfault Hpub] (network & nodes & Hd & Hnet & Hnodes & Hmembers).
  unfold syncHostEndpoints, endpointsListerGet at 1. unfoldM.
  rewrite Hfault, Hpub, Hd, Hnet, Hnodes, Hmembers. simpl.
  destruct (Subsets existing) as [|subset0 rest]; simpl; [done|].
  unfold setAnnotation, hostEndpointsAsset, desiredEndpoints. simpl.
  rewrite insert_empty.
  by destruct (keepBootstrap (Addresses subset0) members).
Qed.

Lemma syncHostEndpoints_reaches_apply e w existing d members subset0 rest :
  existingRead e w existing ->
  membersResolved e d members ->
  Subsets existing = subset0 :: rest ->
  keepBootstrap (Addresses subset0) members <> [] ->
  syncHostEndpoints e w =
    applyEndpoints e
      (desiredEndpoints e d (keepBootstrap (Addresses subset0) members)) w.
Proof.
  intros Hread Hmem Hsub Hne.
  rewrite (syncHostEndpoints_resolved e w existing d members Hread Hmem), Hsub.
  simpl. by destruct (decide _).
Qed.

(** Every builder failure is returned with the world untouched. *)
Lemma builderFailure_sound e w err :
  builderFailure e w err -> syncHostEndpoints e w = (Val (Some err), w).
Proof.
  intros H. destruct H as
    [existing err w' Hget
    |existing err [Hfault Hpub] Hinfra
    |existing infra [Hfault Hpub] Hinfra Hempty
    |existing d err [Hfault Hpub] Hd Hnet
    |existing d network err [Hfault Hpub] Hd Hnet Hnodes
    |existing d network nodes err [Hfault Hpub] Hd Hnet Hnodes Hloop
    |existing subset0 rest d Hread Hsub Hmem Hboot].
  - unfold syncHostEndpoints. unfoldM. rewrite Hget. simpl.
    assert (w' = w) as ->; [|done].
    unfold endpointsListerGet in Hget.
    destruct (endpointsListerFault e), (published w); by injection Hget.
  - unfold syncHostEndpoints, endpointsListerGet, getEtcdDiscoveryDomain. unfoldM.
    by rewrite Hfault, Hpub, Hinfra.
  - unfold syncHostEndpoints, endpointsListerGet, getEtcdDiscoveryDomain. unfoldM.
    by rewrite Hfault, Hpub, Hinfra, Hempty.
  - unfold syncHostEndpoints, endpointsListerGet. unfoldM.
    by rewrite Hfault, Hpub, Hd, Hnet.
  - unfold syncHostEndpoints, endpointsListerGet. unfoldM.
    by rewrite Hfault, Hpub, Hd, Hnet, Hnodes.
  - unfold syncHostEndpoints, endpointsListerGet. unfoldM.
    rewrite Hfault, Hpub, Hd, Hnet, Hnodes.
    by rewrite (nodeLoopFailure_sound e d network nodes [] err Hloop).
  - rewrite (syncHostEndpoints_resolved e w existing d [] Hread Hmem), Hsub.
    simpl. by rewrite keepBootstrap_firstBootstrap, Hboot.
Qed.

(** Nothing to merge and equal subsets: no update. *)
Lemma applyEndpoints_no_write e w required existing meta :
  existingRead e w existing ->
  resourcemerge.EnsureObjectMeta false (Meta existing) (Meta required) = (false, meta) ->
  endpointsSubsetsEqual (Subsets existing) (Subsets required) = Val true ->
  applyEndpoints e required w = (Val None, w).
Proof.
  intros Hread Hmeta Heq.
  by rewrite (applyEndpoints_existing e w required existing Hread), Hmeta, Heq.
Qed.

(** The lister does not return the object: [applyEndpoints] returns an
    error in every case. *)
Lemma applyEndpoints_unread e w required err w0 :
  endpointsListerGet e w = (Val (None, Some err), w0) ->
  exists err' w', applyEndpoints e required w = (Val (Some err'), w').
Proof.
  intros Hget. unfold applyEndpoints. unfoldM. rewrite Hget. simpl.
  destruct (errNotFound err); simpl; [|by eauto].
  unfold endpointsCreate. unfoldM. simpl.
  destruct (endpointsCreateFault e required); simpl; by eauto.
Qed.

Lemma endpointsListerGet_cases e w :
  (exists existing, existingRead e w existing) \/
  (exists err, endpointsListerGet e w = (Val (None, Some err), w)).
Proof.
  unfold existingRead, endpointsListerGet.
  destruct (endpointsListerFault e) as [err|]; [by right; eauto|].
  destruct (published w) as [existing|]; [left|right]; by eauto.
Qed.

(** [applyEndpoints] never indexes out of range. *)
Lemma applyEndpoints_panics e w required p w' :
  applyEndpoints e required w = (Panics p, w') -> p = NilPointerDereference.
Proof.
  destruct (endpointsListerGet_cases e w) as [[existing Hread]|[err Hget]].
  - rewrite (applyEndpoints_existing e w required existing Hread).
    destruct (resourcemerge.EnsureObjectMeta _ _ _) as [modified meta].
    destruct (endpointsSubsetsEqual _ _) as [equal|q] eqn:E.
    + simpl. destruct (negb equal || modified); [|done].
      by destruct (endpointsUpdateFault e).
    + intros [= <- _]. by apply endpointsSubsetsEqual_panics in E.
  - destruct (applyEndpoints_unread e w required err w Hget) as (err' & w0 & ->).
    done.
Qed.

(** The builder stage either fails for one of the causes of
    [builderFailure] or completes all its reads. *)
Lemma syncHostEndpoints_cases e w :
  (exists err, builderFailure e w err) \/
  (exists existing d members,
      existingRead e w existing /\ membersResolved e d members).
Proof.
  destruct (endpointsListerGet_cases e w) as [[existing Hread]|[err Hget]];
    [|left; exists err; by eapply bf_existing_read].
  destruct (infrastructureListerGet e) as [infra|err] eqn:Einfra;
    [|left; eexists; by eapply bf_infrastructure_read].
  destruct (decide (EtcdDiscoveryDomain infra = "")) as [Hd|Hd];
    [left; eexists; by eapply bf_discovery_domain_missing|].
  assert (getEtcdDiscoveryDomain e = Ok (EtcdDiscoveryDomain infra)) as Hdom.
  { unfold getEtcdDiscoveryDomain. by rewrite Einfra, string_length_nonzero. }
  destruct (networkListerGet e) as [network|err] eqn:Enet;
    [|left; eexists; by eapply bf_network_read].
  destruct (nodeListerList e) as [nodes|err] eqn:Enodes;
    [|left; eexists; by eapply bf_node_list].
  destruct (nodeEndpointAddresses e (EtcdDiscoveryDomain infra) network nodes [])
    as [members|err] eqn:Eloop.
  - right. exists existing, (EtcdDiscoveryDomain infra), members.
    split; [done|]. by exists network, nodes.
  - left. exists err. apply nodeEndpointAddresses_Err in Eloop.
    by eapply bf_node_loop.
Qed.

Lemma nodeEndpointAddresses_NodeName e d network nodes acc members :
  Forall (fun a => NodeName a <> None) acc ->
  nodeEndpointAddresses e d network nodes acc = Ok members ->
  Forall (fun a => NodeName a <> None) members.
Proof.
  revert acc. induction nodes as [|node nodes IH]; intros acc Hacc; simpl.
  - by intros [= <-].
  - destruct (GetPreferredInternalIPAddressForNodeName e network node) as [ip|];
      [|done].
    destruct (String.length ip =? 0)%nat; [done|].
    destruct (getEtcdDNSName e d ip) as [dns|]; [|done].
    apply IH. apply Forall_app. split; [done|]. by repeat constructor.
Qed.

Lemma nilTieFree_NodeName l :
  Forall (fun a => NodeName a <> None) l -> nilTieFree l.
Proof.
  induction 1 as [|a l Ha Hl IH]; simpl; [done|]. split; [|done].
  eapply Forall_impl; [exact Hl|]. simpl. intros b Hb [_ [H|H]]; done.
Qed.

Lemma firstBootstrap_Hostname l b :
  firstBootstrap l = Some b -> b ∈ l /\ Hostname b = "etcd-bootstrap".
Proof.
  unfold firstBootstrap. intros H. apply find_some in H as [Hin Heq].
  split; [by apply list_elem_of_In | by apply String.eqb_eq].
Qed.

Lemma firstBootstrap_members members fb :
  Forall (fun a => Hostname a <> "etcd-bootstrap") members ->
  (forall b, fb = Some b -> Hostname b = "etcd-bootstrap") ->
  firstBootstrap (members ++ option_list fb) = fb.
Proof.
  unfold firstBootstrap. intros Hm Hfb.
  induction Hm as [|a members Ha _ IH]; simpl.
  - destruct fb as [b|]; simpl; [|done].
    by rewrite (Hfb b eq_refl).
  - apply String.eqb_neq in Ha. by rewrite Ha.
Qed.

(** The desired addresses have no nil tie when no member is named like
    the bootstrap entry. *)
Lemma nilTieFree_desired members fb :
  Forall (fun a => NodeName a <> None) members ->
  Forall (fun a => Hostname a <> "etcd-bootstrap") members ->
  (forall b, fb = Some b -> Hostname b = "etcd-bootstrap") ->
  nilTieFree (members ++ option_list fb).
Proof.
  intros Hn Hh Hfb. apply nilTieFree_app. split_and!.
  - by apply nilTieFree_NodeName.
  - destruct fb; simpl; by repeat constructor.
  - eapply Forall_impl; [exact Hh|]. simpl. intros a Ha.
    destruct fb as [b|]; simpl; [|constructor].
    repeat constructor. intros [[= _ Hk] _].
    rewrite (Hfb b eq_refl) in Hk. done.
Qed.

(** A reconcile after a successful one finds nothing to do. *)
Lemma reconcile_twice e w w1 :
  (forall d members, membersResolved e d members ->
     Forall (fun a => Hostname a <> "etcd-bootstrap") members) ->
  syncHostEndpoints e w = (Val None, w1) ->
  syncHostEndpoints e w1 = (Val None, w1).
Proof.
  intros Hhost Hrun.
  destruct (syncHostEndpoints_cases e w)
    as [[err Hfail]|(existing & d & members & Hread & Hmem)].
  { rewrite (builderFailure_sound e w err Hfail) in Hrun. done. }
  pose proof (Hhost d members Hmem) as Hnames.
  assert (Forall (fun a => NodeName a <> None) members) as Hnodes.
  { destruct Hmem as (network & nodes & _ & _ & _ & Hloop).
    by eapply nodeEndpointAddresses_NodeName; [|exact Hloop]. }
  pose proof Hrun as Hrun0.
  rewrite (syncHostEndpoints_resolved e w existing d members Hread Hmem) in Hrun.
  destruct (Subsets existing) as [|subset0 rest] eqn:Hsub; [done|].
  simpl in Hrun. destruct (decide _) as [|Hne] in Hrun; [done|].
  pose proof (keepBootstrap_firstBootstrap (Addresses subset0) members) as Hkeep.
  assert (forall b, firstBootstrap (Addresses subset0) = Some b ->
                    Hostname b = "etcd-bootstrap") as Hfb.
  { intros b Hb. by apply firstBootstrap_Hostname in Hb as [_ ?]. }
  remember (keepBootstrap (Addresses subset0) members) as addrs eqn:Haddrs.
  remember (desiredEndpoints e d addrs) as desired eqn:Hdesired.
  rewrite (applyEndpoints_existing e w desired existing Hread) in Hrun.
  destruct (resourcemerge.EnsureObjectMeta false (Meta existing) (Meta desired))
    as [modified meta] eqn:Hmeta.
  destruct (endpointsSubsetsEqual (Subsets existing) (Subsets desired))
    as [equal|] eqn:Heq; [|done].
  simpl in Hrun.
  destruct (negb equal || modified) eqn:Hchanged;
    [|by injection Hrun as <-].
  destruct (endpointsUpdateFault e _); [done|].
  injection Hrun as <-.
  match goal with |- syncHostEndpoints e ?w' = _ => set (w1 := w') end.
  set (toWrite := {| Meta := meta;
                     Subsets := if equal then Subsets existing else Subsets desired |}) in *.
  assert (existingRead e w1 toWrite) as Hread1 by (by destruct Hread).
  assert (resourcemerge.EnsureObjectMeta false (Meta toWrite) (Meta desired)
          = (false, meta)) as Hmeta1.
  { by apply EnsureObjectMeta_idem in Hmeta. }
  destruct equal.
  - rewrite (syncHostEndpoints_reaches_apply e w1 toWrite d members subset0 rest);
      [|done..|by rewrite <- Haddrs].
    rewrite <- Haddrs, <- Hdesired. by eapply applyEndpoints_no_write.
  - assert (keepBootstrap addrs members = addrs) as Hsame.
    { rewrite keepBootstrap_firstBootstrap, Hkeep.
      by rewrite (firstBootstrap_members members _ Hnames Hfb). }
    rewrite (syncHostEndpoints_reaches_apply e w1 toWrite d members
               (mkEndpointSubset addrs [] [mkEndpointPort "etcd" 2379 "TCP"]) []);
      [|done|done|unfold toWrite; simpl; by rewrite Hdesired|simpl; by rewrite Hsame].
    simpl. rewrite Hsame, <- Hdesired.
    eapply applyEndpoints_no_write; [done..|].
    apply endpointsSubsetsEqual_refl. rewrite Hdesired. simpl.
    repeat constructor. rewrite Hkeep. by apply nilTieFree_desired.
Qed.

(** * The claims *)

(** ** C1 *)

(** C1, as stated, fails: with a master node whose SRV target is
    [etcd-bootstrap.<domain>], the first reconcile succeeds and writes the
    node's address, and the second reconcile, on the same topology and DNS
    answers, takes that address for the bootstrap entry, appends it again
    and writes once more. *)
Lemma reconcile_rewrites_bootstrap_named_member :
  exists w1 w2 toWrite message,
    syncHostEndpoints bootstrapNamedEnv (exampleWorld []) = (Val None, w1) /\
    syncHostEndpoints bootstrapNamedEnv w1 = (Val None, w2) /\
    calls w2 = calls w1 ++ [UpdateCall toWrite; WarningEvent "EndpointsUpdated" message] /\
    published w2 = Some toWrite /\
    published w2 <> published w1.
Proof.
  eexists _, _, _, _. split; [vm_compute; reflexivity|].
  split; [vm_compute; reflexivity|].
  split; [vm_compute; reflexivity|]. split; [reflexivity|]. discriminate.
Qed.

(** C1 (amended): when no member node's computed hostname is
    [etcd-bootstrap], a reconcile that follows a successful one on the same
    topology, DNS answers and store returns nil and leaves the world as it
    is: no create, no update, no event.  Concretely, when the metadata
    merge changes nothing and [existing.Subsets] equals [required.Subsets]
    under [endpointsSubsetsEqual], [applyEndpoints] returns nil without
    calling Update. *)
Theorem reconcile_idempotent (e : env) (w w1 : world) :
  (forall d members, membersResolved e d members ->
     Forall (fun a => Hostname a <> "etcd-bootstrap") members) ->
  syncHostEndpoints e w = (Val None, w1) ->
  syncHostEndpoints e w1 = (Val None, w1) /\
  (forall w' required existing meta,
     existingRead e w' existing ->
     resourcemerge.EnsureObjectMeta false (Meta existing) (Meta required)
       = (false, meta) ->
     endpointsSubsetsEqual (Subsets existing) (Subsets required) = Val true ->
     applyEndpoints e required w' = (Val None, w')).
Proof.
  intros Hhost Hrun. split.
  - by apply (reconcile_twice e w w1).
  - intros w' required existing meta. apply applyEndpoints_no_write.
Qed.

Lemma oneMemberEnv_hostnames d members :
  membersResolved oneMemberEnv d members ->
  Forall (fun a => Hostname a <> "etcd-bootstrap") members.
Proof.
  intros (network & nodes & Hd & Hnet & Hnodes & Hloop).
  vm_compute in Hd, Hnet, Hnodes.
  injection Hd as <-. injection Hnet as <-. injection Hnodes as <-.
  vm_compute in Hloop. injection Hloop as <-.
  repeat constructor. discriminate.
Qed.

Lemma reconcile_idempotent_witness :
  syncHostEndpoints oneMemberEnv
    (snd (syncHostEndpoints oneMemberEnv (exampleWorld [bootstrapAddress])))
  = (Val None,
     snd (syncHostEndpoints oneMemberEnv (exampleWorld [bootstrapAddress]))).
Proof.
  apply (reconcile_idempotent oneMemberEnv (exampleWorld [bootstrapAddress])).
  - exact oneMemberEnv_hostnames.
  - vm_compute. reflexivity.
Defined.

(** ** C2 *)

(** C2, as stated, fails: only the first address named [etcd-bootstrap]
    of the first subset is kept.  With a second such address in the first
    subset and a third in a second subset, both are existing bootstrap
    entries that the desired set, and the object written, do not
    contain. *)
Lemma later_bootstrap_entries_dropped :
  exists w1 toWrite message,
    bootstrapAddress2 ∈ allAddresses twoSubsetEndpoints /\
    bootstrapAddress3 ∈ allAddresses twoSubsetEndpoints /\
    Hostname bootstrapAddress2 = "etcd-bootstrap" /\
    Hostname bootstrapAddress3 = "etcd-bootstrap" /\
    syncHostEndpoints oneMemberEnv twoSubsetWorld = (Val None, w1) /\
    calls w1 = [UpdateCall toWrite; WarningEvent "EndpointsUpdated" message] /\
    toWrite = desiredEndpoints oneMemberEnv "example.com" [member0; bootstrapAddress] /\
    (bootstrapAddress2 ∉ [member0; bootstrapAddress]) /\
    (bootstrapAddress3 ∉ [member0; bootstrapAddress]).
Proof.
  eexists _, _, _. split; [vm_compute; set_solver|].
  split; [vm_compute; set_solver|]. split; [reflexivity|]. split; [reflexivity|].
  split; [vm_compute; reflexivity|]. split; [reflexivity|].
  split; [vm_compute; reflexivity|].
  split; intros H;
    by repeat (apply elem_of_cons in H as [H|H]; [discriminate|]);
       apply elem_of_nil in H.
Qed.

(** C2 (amended): if the addresses of the first subset of the existing
    published object include an entry with hostname exactly
    [etcd-bootstrap], then the desired address set handed to
    [applyEndpoints] is the member addresses followed by the first such
    entry, unchanged, whatever the current master nodes are. *)
Theorem bootstrap_preserved (e : env) (w : world) (existing : Endpoints)
    (subset0 : EndpointSubset) (rest : list EndpointSubset) (d : string)
    (members : list EndpointAddress) (b : EndpointAddress) :
  existingRead e w existing ->
  Subsets existing = subset0 :: rest ->
  membersResolved e d members ->
  firstBootstrap (Addresses subset0) = Some b ->
  b ∈ Addresses subset0 /\
  Hostname b = "etcd-bootstrap" /\
  syncHostEndpoints e w = applyEndpoints e (desiredEndpoints e d (members ++ [b])) w /\
  allAddresses (desiredEndpoints e d (members ++ [b])) = members ++ [b].
Proof.
  intros Hread Hsub Hmem Hb.
  destruct (firstBootstrap_Hostname _ _ Hb) as [Hin Hname].
  split_and!; [done..| |unfold allAddresses; simpl; by rewrite app_nil_r].
  rewrite (syncHostEndpoints_reaches_apply e w existing d members subset0 rest);
    try done; rewrite keepBootstrap_firstBootstrap, Hb; simpl; [done|].
  by destruct members.
Qed.

Lemma oneMemberEnv_resolved : membersResolved oneMemberEnv "example.com" [member0].
Proof. eexists _, _. by vm_compute. Qed.

Lemma bootstrap_preserved_witness :
  syncHostEndpoints oneMemberEnv twoSubsetWorld
  = applyEndpoints oneMemberEnv
      (desiredEndpoints oneMemberEnv "example.com" ([member0] ++ [bootstrapAddress]))
      twoSubsetWorld.
Proof.
  eapply (bootstrap_preserved oneMemberEnv twoSubsetWorld).
  - split; reflexivity.
  - reflexivity.
  - exact oneMemberEnv_resolved.
  - reflexivity.
Defined.

(** ** C3 *)

(** C3: every error of the builder stage (reading the existing object,
    the discovery domain, the network configuration, the node list, a
    node's internal IP, the DNS resolution, or an empty address set) is the
    value [syncHostEndpoints] returns, and the world is left as it was: no
    call is recorded, so [applyEndpoints] was not reached and neither
    Create nor Update was attempted.  Conversely, a reconcile that changes
    the world has completed the builder stage with a non-empty address set
    and owes the change to [applyEndpoints]. *)
Theorem builder_failure_atomic (e : env) (w : world) :
  (forall err,
     builderFailure e w err ->
     syncHostEndpoints e w = (Val (Some err), w)) /\
  (forall r w',
     syncHostEndpoints e w = (r, w') -> w' <> w ->
     exists existing d members subset0 rest,
       existingRead e w existing /\
       membersResolved e d members /\
       Subsets existing = subset0 :: rest /\
       keepBootstrap (Addresses subset0) members <> [] /\
       applyEndpoints e
         (desiredEndpoints e d (keepBootstrap (Addresses subset0) members)) w
       = (r, w')).
Proof.
  split; [apply builderFailure_sound|].
  intros r w' Hrun Hchanged.
  destruct (syncHostEndpoints_cases e w)
    as [[err Hfail]|(existing & d & members & Hread & Hmem)].
  { rewrite (builderFailure_sound e w err Hfail) in Hrun. by injection Hrun. }
  rewrite (syncHostEndpoints_resolved e w existing d members Hread Hmem) in Hrun.
  destruct (Subsets existing) as [|subset0 rest] eqn:Hsub; [by injection Hrun|].
  simpl in Hrun. destruct (decide _) as [|Hne] in Hrun; [by injection Hrun|].
  by exists existing, d, members, subset0, rest.
Qed.

Lemma builder_failure_atomic_witness :
  syncHostEndpoints (noDomainEnv None) (exampleWorld [bootstrapAddress])
  = (Val (Some (Errorf ("unable to determine etcd discovery domain: " +:+
        "infrastructures.config.openshit.io/cluster missing .status.etcdDiscoveryDomain"))),
     exampleWorld [bootstrapAddress]).
Proof.
  apply (proj1 (builder_failure_atomic (noDomainEnv None)
                  (exampleWorld [bootstrapAddress]))).
  eapply bf_discovery_domain_missing.
  - split; reflexivity.
  - reflexivity.
  - reflexivity.
Defined.

(** ** C4 *)

(** C4 on the code: for two subsets that hold the same addresses in any
    order, with as many not-ready addresses and ports, the comparison
    returns true when no two addresses share IP and hostname with a nil
    [NodeName] among them, and panics with a nil dereference otherwise,
    where C4 expects true.  The failing input below is such a pair. *)
Theorem subset_equal_order_independence (lhs rhs : EndpointSubset) :
  Addresses lhs ≡ₚ Addresses rhs ->
  length (NotReadyAddresses lhs) = length (NotReadyAddresses rhs) ->
  length (Ports lhs) = length (Ports rhs) ->
  endpointSubsetEqual lhs rhs =
    if decide (nilTieFree (Addresses lhs)) then Val true
    else Panics NilPointerDereference.
Proof.
  intros Hperm Hnotready Hports. destruct (decide _) as [Hfree|Htie].
  - by apply endpointSubsetEqual_perm.
  - apply endpointSubsetEqual_panics. split_and!; [done| |done..|tauto].
    by apply Permutation_length.
Qed.

Lemma subset_equal_order_independence_witness :
  endpointSubsetEqual
    {| Addresses := [bootstrapAddress; bootstrapTwin];
       NotReadyAddresses := []; Ports := [] |}
    {| Addresses := [bootstrapTwin; bootstrapAddress];
       NotReadyAddresses := []; Ports := [] |}
  = Panics NilPointerDereference.
Proof.
  rewrite (subset_equal_order_independence
             {| Addresses := [bootstrapAddress; bootstrapTwin];
                NotReadyAddresses := []; Ports := [] |}
             {| Addresses := [bootstrapTwin; bootstrapAddress];
                NotReadyAddresses := []; Ports := [] |}).
  - reflexivity.
  - apply perm_swap.
  - reflexivity.
  - reflexivity.
Defined.

(** ** C5 *)

(** C5, as stated, fails: the emptiness test runs after the bootstrap
    entry has been appended.  With no master node and a published
    bootstrap entry the member addresses are empty, yet the reconcile
    returns nil and updates the store. *)
Lemma no_members_with_bootstrap_writes :
  exists w1 toWrite message,
    membersResolved noMemberEnv "example.com" [] /\
    syncHostEndpoints noMemberEnv (exampleWorld [bootstrapAddress; member0])
      = (Val None, w1) /\
    calls w1 = [UpdateCall toWrite; WarningEvent "EndpointsUpdated" message] /\
    published w1 = Some toWrite.
Proof.
  eexists _, _, _. split; [eexists _, _; by vm_compute|].
  split; [vm_compute; reflexivity|]. split; reflexivity.
Qed.

(** C5 (amended): if the computed address set is empty, that is, the
    member addresses are empty and the first subset of the existing object
    holds no [etcd-bootstrap] entry, the reconcile fails with "no etcd
    member nodes are ready" and the world is left as it was; with a
    bootstrap entry to keep, the reconcile goes on to [applyEndpoints] with
    that entry alone. *)
Theorem empty_address_set_fails (e : env) (w : world) (existing : Endpoints)
    (subset0 : EndpointSubset) (rest : list EndpointSubset) (d : string) :
  existingRead e w existing ->
  Subsets existing = subset0 :: rest ->
  membersResolved e d [] ->
  syncHostEndpoints e w =
    match firstBootstrap (Addresses subset0) with
    | None => (Val (Some (Errorf "no etcd member nodes are ready")), w)
    | Some b => applyEndpoints e (desiredEndpoints e d [b]) w
    end.
Proof.
  intros Hread Hsub Hmem.
  rewrite (syncHostEndpoints_resolved e w existing d [] Hread Hmem), Hsub.
  simpl. rewrite keepBootstrap_firstBootstrap.
  by destruct (firstBootstrap (Addresses subset0)).
Qed.

Lemma empty_address_set_fails_witness :
  syncHostEndpoints noMemberEnv (exampleWorld [member0])
  = (Val (Some (Errorf "no etcd member nodes are ready")), exampleWorld [member0]).
Proof.
  apply (empty_address_set_fails noMemberEnv (exampleWorld [member0])
           (desiredEndpoints noMemberEnv "example.com" [member0])
           {| Addresses := [member0]; NotReadyAddresses := [];
              Ports := [ {| PortName := "etcd"; Port := 2379; Protocol := "TCP" |} ] |}
           [] "example.com").
  - split; reflexivity.
  - reflexivity.
  - eexists _, _. by vm_compute.
Defined.

(** ** C6 *)

(** C6: when the SRV query for [etcd-server-ssl], [tcp], [example.com]
    returns the targets [a.example.com] and [b.example.com] (in either
    order, with or without trailing dots), resolving to 10.0.0.1 and
    10.0.0.2, the reverse lookup of 10.0.0.1 returns [a.example.com] and
    the endpoint record of the node with that IP has hostname [a]. *)
Theorem dns_matching (e : env) (network : Network) (node : Node.t)
    (srvA srvB : SRV) (srvs : list SRV) :
  strings.Trim (Target srvA) "." = "a.example.com" ->
  srvs ≡ₚ [srvA; srvB] ->
  LookupSRV e "etcd-server-ssl" "tcp" "example.com" = Ok srvs ->
  LookupHost e (Target srvA) = Ok ["10.0.0.1"] ->
  LookupHost e (Target srvB) = Ok ["10.0.0.2"] ->
  GetPreferredInternalIPAddressForNodeName e network node = Ok "10.0.0.1" ->
  reverseLookup e "etcd-server-ssl" "tcp" "example.com" "10.0.0.1"
    = Ok "a.example.com" /\
  nodeEndpointAddresses e "example.com" network [node] []
    = Ok [ {| IP := "10.0.0.1"; Hostname := "a";
              NodeName := Some (Node.Name node) |} ].
Proof.
  intros Htrim Hperm Hsrv Ha Hb Hip.
  assert (reverseLookup e "etcd-server-ssl" "tcp" "example.com" "10.0.0.1"
          = Ok "a.example.com") as Hrev.
  { unfold reverseLookup. rewrite Hsrv.
    symmetry in Hperm. apply Permutation_length_2_inv in Hperm as [->| ->];
      simpl; rewrite Ha, Hb; simpl; by rewrite Htrim. }
  split; [done|].
  simpl. rewrite Hip. simpl. unfold getEtcdDNSName. by rewrite Hrev.
Qed.

Lemma dns_matching_witness :
  nodeEndpointAddresses abEnv "example.com" {| ServiceNetwork := [] |} [master0] []
  = Ok [ {| IP := "10.0.0.1"; Hostname := "a"; NodeName := Some "master-0" |} ].
Proof.
  apply (dns_matching abEnv {| ServiceNetwork := [] |} master0
           {| Target := "a.example.com."; SrvPort := 2380 |}
           {| Target := "b.example.com."; SrvPort := 2380 |}
           [ {| Target := "a.example.com."; SrvPort := 2380 |};
             {| Target := "b.example.com."; SrvPort := 2380 |} ]);
    reflexivity.
Defined.

(** ** C7 *)

(** C7 at the failing input: the lister does not find [host-etcd] and the
    create succeeds.  The object is created and the "created" event is
    emitted, but [applyEndpoints] then returns the lister's not-found
    error, because the [err] tested after the create block is the outer
    one. *)
Theorem create_on_not_found_returns_error (e : env) (w : world)
    (required : Endpoints) :
  endpointsListerFault e = None ->
  published w = None ->
  endpointsCreateFault e required = None ->
  applyEndpoints e required w =
    (Val (Some notFoundError),
     {| published := Some required;
        conditions := conditions w;
        calls := calls w ++
          [CreateCall required;
           WarningEvent "EndpointsCreated"
             ("Created endpoints/" +:+ Name (Meta required) +:+ " -n "
              +:+ Namespace (Meta required) +:+ " because it was missing")] |}).
Proof.
  intros Hfault Hpub Hcreate.
  unfold applyEndpoints, endpointsListerGet, endpointsCreate. unfoldM.
  rewrite Hfault, Hpub. simpl. rewrite Hcreate. simpl.
  by rewrite <- app_assoc.
Qed.

Lemma create_on_not_found_returns_error_witness :
  fst (applyEndpoints oneMemberEnv
         (desiredEndpoints oneMemberEnv "example.com" [member0]) emptyWorld)
  = Val (Some notFoundError).
Proof.
  rewrite (create_on_not_found_returns_error oneMemberEnv emptyWorld
             (desiredEndpoints oneMemberEnv "example.com" [member0]));
    reflexivity.
Defined.

(** ** C8 *)

(** C8, as stated, fails on the success path: the reconcile succeeds, the
    write of the healthy condition fails, and [sync] returns the
    status-write error instead of nil. *)
Lemma status_error_replaces_success :
  exists w1,
    syncHostEndpoints statusFaultEnv (exampleWorld [member0]) = (Val None, w1) /\
    fst (sync statusFaultEnv (exampleWorld [member0]))
      = Val (Some (Errorf "status update conflict")).
Proof. eexists. split; vm_compute; reflexivity. Qed.

(** C8 (amended): [sync] reports the outcome of [syncHostEndpoints] with
    one status write.  On failure it writes HostEndpointsDegraded=True with
    reason ErrorUpdatingHostEndpoints and the error text as message, and
    returns the reconcile error whether or not that write succeeds; a
    status-write failure only adds a warning event.  On success it writes
    HostEndpointsDegraded=False with reason HostEndpointsUpdated and
    returns nil when that write succeeds, and the status-write error, after
    a warning event, when it fails. *)
Theorem sync_reports_outcome (e : env) (w w1 : world) (result : option error) :
  syncHostEndpoints e w = (Val result, w1) ->
  let condition :=
    match result with
    | Some err => degradedCondition err
    | None => healthyCondition
    end in
  fst (sync e w) =
    Val (match result with
         | Some err => Some err
         | None => updateStatusFault e condition
         end) /\
  calls (snd (sync e w)) =
    calls w1 ++ UpdateStatusCall condition ::
      match updateStatusFault e condition with
      | Some updateErr =>
          [WarningEvent "HostEndpointsErrorUpdatingStatus" (errMsg updateErr)]
      | None => []
      end /\
  published (snd (sync e w)) = published w1.
Proof.
  intros Hrun. unfold sync, UpdateStatus. unfoldM. rewrite Hrun.
  destruct result as [err|]; simpl.
  - destruct (updateStatusFault e (degradedCondition err)) eqn:E;
      unfold degradedCondition in E; rewrite E; simpl;
      by rewrite <- ?app_assoc, ?app_nil_r.
  - destruct (updateStatusFault e healthyCondition) eqn:E;
      unfold healthyCondition in E; rewrite E; simpl;
      by rewrite <- ?app_assoc, ?app_nil_r.
Qed.

Lemma sync_reports_outcome_witness :
  fst (sync (noDomainEnv (Some (Errorf "status update conflict")))
         (exampleWorld [member0]))
  = Val (Some (Errorf ("unable to determine etcd discovery domain: " +:+
        "infrastructures.config.openshit.io/cluster missing .status.etcdDiscoveryDomain"))).
Proof.
  apply (sync_reports_outcome (noDomainEnv (Some (Errorf "status update conflict")))
           (exampleWorld [member0])
           (exampleWorld [member0])
           (Some (Errorf ("unable to determine etcd discovery domain: " +:+
              "infrastructures.config.openshit.io/cluster missing .status.etcdDiscoveryDomain")))).
  vm_compute. reflexivity.
Defined.

(** ** C9 *)

(** C9: [syncHostEndpoints] panics with an index out of range exactly when
    the reads of the builder stage succeed and the existing published
    object has no subset; with at least one subset no index access of the
    reconcile is out of range. *)
Theorem existing_subsets_precondition (e : env) (w : world) :
  (exists w', syncHostEndpoints e w = (Panics IndexOutOfRange, w')) <->
  (exists existing d members,
      existingRead e w existing /\
      membersResolved e d members /\
      Subsets existing = []).
Proof.
  split.
  - intros [w' Hrun].
    destruct (syncHostEndpoints_cases e w)
      as [[err Hfail]|(existing & d & members & Hread & Hmem)].
    { by rewrite (builderFailure_sound e w err Hfail) in Hrun. }
    exists existing, d, members. split_and!; [done..|].
    rewrite (syncHostEndpoints_resolved e w existing d members Hread Hmem) in Hrun.
    destruct (Subsets existing) as [|subset0 rest]; [done|].
    simpl in Hrun. destruct (decide _) in Hrun; [done|].
    by apply applyEndpoints_panics in Hrun.
  - intros (existing & d & members & Hread & Hmem & Hsub). exists w.
    by rewrite (syncHostEndpoints_resolved e w existing d members Hread Hmem), Hsub.
Qed.

(** ** C10 *)

(** [nilTieFree] in terms of positions. *)
Lemma nilTieFree_lookup l :
  nilTieFree l <->
  forall i j a b, i <> j -> l !! i = Some a -> l !! j = Some b -> ~ nilTie a b.
Proof.
  induction l as [|x l IH]; simpl.
  - split; [|done]. intros _ i j a b _ Hi. by rewrite lookup_nil in Hi.
  - rewrite IH, Forall_forall. split.
    + intros [Hx Hl] [|i] [|j] a b Hne Hi Hj; simpl in *; simplify_eq.
      * apply Hx. by eapply list_elem_of_lookup_2.
      * intros Ht. apply nilTie_sym in Ht. revert Ht. apply Hx.
        by eapply list_elem_of_lookup_2.
      * apply (Hl i j); [congruence|done..].
    + intros H. split.
      * intros b Hb. apply list_elem_of_lookup in Hb as [k Hk].
        by apply (H 0 (S k)).
      * intros i j a b Hne Hi Hj. apply (H (S i) (S j)); [congruence|done..].
Qed.

(** C10: the comparator dereferences a nil [NodeName] exactly when the
    two addresses it reads have equal IP and equal hostname and one of
    them has no [NodeName]; sorting a slice, and so the subset comparison
    once the three length tests pass, returns a value exactly when no two
    addresses at distinct positions form such a pair, and panics with a nil
    dereference otherwise. *)
Theorem comparator_nil_precondition :
  (forall data i j,
     newEndpointAddressSliceComparator data i j = Panics NilPointerDereference <->
     exists a b, data !! i = Some a /\ data !! j = Some b /\
                 IP a = IP b /\ Hostname a = Hostname b /\
                 (NodeName a = None \/ NodeName b = None)) /\
  (forall l,
     (exists s, sort.Slice newEndpointAddressSliceComparator l = Val s) <->
     (forall i j a b, i <> j -> l !! i = Some a -> l !! j = Some b ->
                      ~ nilTie a b)) /\
  (forall lhs rhs p,
     endpointSubsetEqual lhs rhs = Panics p <->
     p = NilPointerDereference /\
     length (Addresses lhs) = length (Addresses rhs) /\
     length (NotReadyAddresses lhs) = length (NotReadyAddresses rhs) /\
     length (Ports lhs) = length (Ports rhs) /\
     ~ (nilTieFree (Addresses lhs) /\ nilTieFree (Addresses rhs))).
Proof.
  split_and!.
  - intros data i j. unfold newEndpointAddressSliceComparator, index. split.
    + destruct (data !! i) as [a|]; simpl; [|done].
      destruct (data !! j) as [b|]; simpl; [|done].
      intros H. apply (lessAddress_panics a b) in H as [_ [[= Hip Hh] Hn]].
      by exists a, b.
    + intros (a & b & -> & -> & Hip & Hh & Hn). simpl.
      apply (lessAddress_panics a b). split; [done|].
      split; [unfold key; congruence|done].
  - intros l. rewrite <- nilTieFree_lookup. split.
    + intros [s Hs]. by apply sortAddresses_val_inv in Hs.
    + intros Hf. destruct (sortAddresses_ok l Hf) as (s & Hs & _). by exists s.
  - apply endpointSubsetEqual_panics.
Qed.

Lemma comparator_nil_precondition_witness :
  newEndpointAddressSliceComparator [bootstrapAddress; bootstrapAddress] 1 0
  = Panics NilPointerDereference.
Proof.
  apply (proj1 comparator_nil_precondition [bootstrapAddress; bootstrapAddress] 1 0).
  exists bootstrapAddress, bootstrapAddress. split_and!; try reflexivity. by left.
Defined.

(** * Further properties of the controller *)

(** ** The reverse lookup *)

Lemma reverseLookupAddrs_elem addrs ip target selfTarget :
  reverseLookupAddrs addrs ip target selfTarget =
    if bool_decide (ip ∈ addrs) then strings.Trim target "." else selfTarget.
Proof.
  induction addrs as [|addr addrs IH]; cbn [reverseLookupAddrs].
  - rewrite bool_decide_eq_false_2; [done|]. apply not_elem_of_nil.
  - destruct (String.eqb addr ip) eqn:E.
    + apply String.eqb_eq in E. subst addr.
      rewrite bool_decide_eq_true_2; [done|]. apply elem_of_cons. by left.
    + apply String.eqb_neq in E. rewrite IH.
      destruct (decide (ip ∈ addrs)) as [Hin|Hin].
      * rewrite (bool_decide_eq_true_2 (ip ∈ addrs)) by done.
        rewrite bool_decide_eq_true_2; [done|]. apply elem_of_cons. by right.
      * rewrite (bool_decide_eq_false_2 (ip ∈ addrs)) by done.
        rewrite bool_decide_eq_false_2; [done|].
        intros H. apply elem_of_cons in H as [H|H]; [congruence|done].
Qed.

Lemma reverseLookupSrvs_last e srvs ip selfTarget :
  Forall (resolvable e) srvs ->
  reverseLookupSrvs e srvs ip selfTarget =
    selfOrError
      match last (filter (fun srv => resolvesTo e ip srv = true) srvs) with
      | Some srv => strings.Trim (Target srv) "."
      | None => selfTarget
      end.
Proof.
  intros H. revert selfTarget.
  induction H as [|srv srvs [addrs Haddrs] _ IH]; intros selfTarget; simpl.
  - done.
  - rewrite Haddrs, IH, reverseLookupAddrs_elem.
    rewrite filter_cons.
    assert (resolvesTo e ip srv = bool_decide (ip ∈ addrs)) as Hres.
    { unfold resolvesTo. by rewrite Haddrs. }
    destruct (decide (ip ∈ addrs)) as [Hin|Hin].
    + rewrite (bool_decide_eq_true_2 _ Hin) in Hres |- *.
      rewrite decide_True by done.
      destruct (filter _ srvs) as [|s l] eqn:E; [reflexivity|].
      rewrite last_cons_cons.
      destruct (last (s :: l)) eqn:El; [done|]. by apply last_None in El.
    + rewrite (bool_decide_eq_false_2 _ Hin) in Hres |- *.
      rewrite decide_False; [done|]. by rewrite Hres.
Qed.

(** X1: when the SRV lookup succeeds and every SRV target has an address
    record, [reverseLookup] answers with the last SRV target whose addresses
    contain [ip], trimmed of dots; it fails with [could not find self] when
    no target matches or when the last match trims to the empty name. *)
Theorem reverseLookup_last_match (e : env) (service proto name ip : string)
    (srvs : list SRV) :
  LookupSRV e service proto name = Ok srvs ->
  Forall (resolvable e) srvs ->
  reverseLookup e service proto name ip =
    match last (filter (fun srv => resolvesTo e ip srv = true) srvs) with
    | Some srv => selfOrError (strings.Trim (Target srv) ".")
    | None => Err (Errorf "could not find self")
    end.
Proof.
  intros Hsrv Hall. unfold reverseLookup. rewrite Hsrv.
  rewrite (reverseLookupSrvs_last e srvs ip "" Hall).
  by destruct (last _).
Qed.

Lemma reverseLookup_last_match_witness :
  reverseLookup abEnv "etcd-server-ssl" "tcp" "example.com" "10.0.0.2" =
    match last (filter (fun srv => resolvesTo abEnv "10.0.0.2" srv = true)
                  [ {| Target := "a.example.com."; SrvPort := 2380 |};
                    {| Target := "b.example.com."; SrvPort := 2380 |} ]) with
    | Some srv => selfOrError (strings.Trim (Target srv) ".")
    | None => Err (Errorf "could not find self")
    end.
Proof.
  apply (reverseLookup_last_match abEnv "etcd-server-ssl" "tcp" "example.com"
           "10.0.0.2").
  - vm_compute. reflexivity.
  - repeat constructor; eexists; vm_compute; reflexivity.
Defined.

Lemma reverseLookupSrvs_app e pre rest ip selfTarget :
  Forall (resolvable e) pre ->
  exists selfTarget',
    reverseLookupSrvs e (pre ++ rest) ip selfTarget
    = reverseLookupSrvs e rest ip selfTarget'.
Proof.
  intros H. revert selfTarget.
  induction H as [|srv pre [addrs Haddrs] _ IH]; intros selfTarget; simpl.
  - by exists selfTarget.
  - rewrite Haddrs. apply IH.
Qed.

(** X2: [reverseLookup] fails with [could not resolve member <target>] at
    the first SRV target whose forward lookup fails, whatever [ip] is and
    whatever the later targets resolve to; the error of the lookup itself is
    dropped. *)
Theorem reverseLookup_unresolved_member (e : env) (service proto name ip : string)
    (pre post : list SRV) (srv : SRV) (err : error) :
  LookupSRV e service proto name = Ok (pre ++ srv :: post) ->
  Forall (resolvable e) pre ->
  LookupHost e (Target srv) = Err err ->
  reverseLookup e service proto name ip =
    Err (Errorf ("could not resolve member " +:+ quoted (Target srv))).
Proof.
  intros Hsrv Hpre Hfail. unfold reverseLookup. rewrite Hsrv.
  destruct (reverseLookupSrvs_app e pre (srv :: post) ip "" Hpre) as [s ->].
  simpl. by rewrite Hfail.
Qed.

Lemma reverseLookup_unresolved_member_witness :
  reverseLookup danglingSrvEnv "etcd-server-ssl" "tcp" "example.com" "10.0.0.1" =
    Err (Errorf ("could not resolve member " +:+ quoted "etcd-1.example.com.")).
Proof.
  apply (reverseLookup_unresolved_member danglingSrvEnv
           "etcd-server-ssl" "tcp" "example.com" "10.0.0.1"
           [ {| Target := "etcd-0.example.com."; SrvPort := 2380 |} ]
           [ {| Target := "etcd-2.example.com."; SrvPort := 2380 |} ]
           {| Target := "etcd-1.example.com."; SrvPort := 2380 |}
           (Errorf "no such host")).
  - vm_compute. reflexivity.
  - repeat constructor; eexists; vm_compute; reflexivity.
  - vm_compute. reflexivity.
Defined.

Lemma reverseLookupSrvs_Ok e srvs ip selfTarget name :
  reverseLookupSrvs e srvs ip selfTarget = Ok name ->
  Forall (resolvable e) srvs.
Proof.
  revert selfTarget. induction srvs as [|srv srvs IH]; intros selfTarget; simpl.
  - by constructor.
  - destruct (LookupHost e (Target srv)) as [addrs|] eqn:E; [|done].
    intros H. constructor; [by exists addrs|by eapply IH].
Qed.

(** X3: a name returned by [reverseLookup] is not empty, every SRV target
    of the answer resolved, and the name is the trimmed target of an SRV
    record whose addresses contain [ip]. *)
Theorem reverseLookup_sound (e : env) (service proto name ip dnsName : string) :
  reverseLookup e service proto name ip = Ok dnsName ->
  dnsName <> "" /\
  exists srvs srv addrs,
    LookupSRV e service proto name = Ok srvs /\
    Forall (resolvable e) srvs /\
    srv ∈ srvs /\
    LookupHost e (Target srv) = Ok addrs /\
    ip ∈ addrs /\
    dnsName = strings.Trim (Target srv) ".".
Proof.
  unfold reverseLookup.
  destruct (LookupSRV e service proto name) as [srvs|] eqn:Hsrv; [|done].
  intros Hrun. pose proof (reverseLookupSrvs_Ok _ _ _ _ _ Hrun) as Hall.
  rewrite (reverseLookupSrvs_last e srvs ip "" Hall) in Hrun.
  unfold selfOrError in Hrun.
  destruct (last _) as [srv|] eqn:Hlast; [|done].
  destruct (String.eqb _ "") eqn:Hne; [done|].
  injection Hrun as <-. apply String.eqb_neq in Hne. split; [done|].
  apply last_Some in Hlast as [l' Hl'].
  assert (srv ∈ filter (fun srv => resolvesTo e ip srv = true) srvs) as Hin.
  { rewrite Hl'. apply elem_of_app. right. apply elem_of_cons. by left. }
  apply list_elem_of_filter in Hin as [Hres Hin].
  unfold resolvesTo in Hres.
  destruct (LookupHost e (Target srv)) as [addrs|] eqn:Haddrs; [|done].
  apply bool_decide_eq_true in Hres.
  by exists srvs, srv, addrs.
Qed.

Lemma reverseLookup_sound_witness :
  "b.example.com" <> "" /\
  exists srvs srv addrs,
    LookupSRV abEnv "etcd-server-ssl" "tcp" "example.com" = Ok srvs /\
    Forall (resolvable abEnv) srvs /\
    srv ∈ srvs /\
    LookupHost abEnv (Target srv) = Ok addrs /\
    "10.0.0.2" ∈ addrs /\
    "b.example.com" = strings.Trim (Target srv) ".".
Proof.
  apply (reverseLookup_sound abEnv "etcd-server-ssl" "tcp" "example.com"
           "10.0.0.2" "b.example.com").
  vm_compute. reflexivity.
Defined.

(** ** The node loop *)

Lemma nodeEndpointAddresses_records e d network nodes acc out :
  nodeEndpointAddresses e d network nodes acc = Ok out <->
  exists new, out = acc ++ new /\ Forall2 (nodeRecord e d network) nodes new.
Proof.
  revert acc out. induction nodes as [|node nodes IH]; intros acc out; simpl.
  - split.
    + intros [= <-]. exists []. by rewrite app_nil_r.
    + intros (new & -> & Hall). apply Forall2_nil_inv_l in Hall as ->.
      by rewrite app_nil_r.
  - split.
    + destruct (GetPreferredInternalIPAddressForNodeName e network node)
        as [ip|] eqn:Eip; [|done].
      destruct (String.length ip =? 0)%nat eqn:Elen; [done|].
      destruct (getEtcdDNSName e d ip) as [dns|] eqn:Edns; [|done].
      intros H. apply IH in H as (new & -> & Hall).
      eexists (_ :: new). rewrite <- app_assoc. split; [done|].
      constructor; [|done]. split_and!; simpl; [done| |done|by exists dns].
      intros ->. done.
    + intros (new & -> & Hall).
      apply Forall2_cons_inv_l in Hall as (a & new' & Hrec & Hall & ->).
      destruct Hrec as (Hip & Hne & Hname & dns & Hdns & Hhost).
      rewrite Hip, (string_length_nonzero _ Hne), Hdns.
      apply IH. exists new'. rewrite <- app_assoc. split; [|done].
      do 2 f_equal. destruct a; simpl in *. by subst.
Qed.

(** X4: the node loop of [syncHostEndpoints] succeeds exactly when it
    appends one address per node, in node order, to the addresses collected
    so far: the preferred internal IP of the node, which is not empty, the
    name of the node, and the DNS name of that IP without the suffix made of
    a dot and the discovery domain. *)
Theorem node_loop_one_record_per_node (e : env) (d : string) (network : Network)
    (nodes : list Node.t) (acc out : list EndpointAddress) :
  nodeEndpointAddresses e d network nodes acc = Ok out <->
  exists new,
    out = acc ++ new /\
    length new = length nodes /\
    Forall2 (nodeRecord e d network) nodes new.
Proof.
  rewrite nodeEndpointAddresses_records. split.
  - intros (new & -> & Hall). exists new. split_and!; [done| |done].
    symmetry. by eapply Forall2_length.
  - intros (new & -> & _ & Hall). by exists new.
Qed.

(** ** Hostnames *)

Lemma rev_app_app s acc : String.rev_app s acc = String.rev s +:+ acc.
Proof.
  unfold String.rev. revert acc. induction s as [|a s IH]; intros acc; simpl.
  - done.
  - rewrite IH, (IH (String a "")).
    clear IH. induction (String.rev_app s "") as [|b t IHt]; simpl; [done|].
    unfold String.app in *. simpl. by rewrite IHt.
Qed.

Lemma rev_app_append s1 s2 acc :
  String.rev_app (s1 +:+ s2) acc = String.rev_app s2 (String.rev_app s1 acc).
Proof.
  revert acc. induction s1 as [|a s1 IH]; intros acc; [done|].
  change (String a s1 +:+ s2) with (String a (s1 +:+ s2)). simpl. apply IH.
Qed.

Lemma rev_append s1 s2 : String.rev (s1 +:+ s2) = String.rev s2 +:+ String.rev s1.
Proof. unfold String.rev at 1. by rewrite rev_app_append, rev_app_app. Qed.

Lemma prefix_append p x : String.prefix p (p +:+ x) = true.
Proof.
  induction p as [|a p IH]; [by destruct x|].
  change (String a p +:+ x) with (String a (p +:+ x)). simpl.
  by destruct (ascii_dec a a).
Qed.

Lemma length_append s t :
  String.length (s +:+ t) = (String.length s + String.length t)%nat.
Proof.
  induction s as [|a s IH]; [done|].
  change (String a s +:+ t) with (String a (s +:+ t)). simpl. by rewrite IH.
Qed.

Lemma substring_append s t : substring 0 (String.length s) (s +:+ t) = s.
Proof.
  induction s as [|a s IH]; [by destruct t|].
  change (String a s +:+ t) with (String a (s +:+ t)). simpl. by rewrite IH.
Qed.

Lemma TrimSuffix_append s suffix : strings.TrimSuffix (s +:+ suffix) suffix = s.
Proof.
  unfold strings.TrimSuffix, strings.HasSuffix.
  rewrite rev_append, prefix_append, length_append.
  replace (String.length s + String.length suffix - String.length suffix)%nat
    with (String.length s) by lia.
  apply substring_append.
Qed.

(** X5: for a node that resolves, the hostname recorded is the DNS name
    with the dot and the discovery domain removed when the DNS name ends
    with them, and the DNS name itself when it does not. *)
Theorem node_hostname_strips_domain (e : env) (d : string) (network : Network)
    (node : Node.t) (ip dnsName : string) (acc : list EndpointAddress) :
  GetPreferredInternalIPAddressForNodeName e network node = Ok ip ->
  ip <> "" ->
  getEtcdDNSName e d ip = Ok dnsName ->
  exists hostname,
    nodeEndpointAddresses e d network [node] acc =
      Ok (acc ++ [ {| IP := ip; Hostname := hostname;
                      NodeName := Some (Node.Name node) |} ]) /\
    (forall short, dnsName = short +:+ "." +:+ d -> hostname = short) /\
    (strings.HasSuffix dnsName ("." +:+ d) = false -> hostname = dnsName).
Proof.
  intros Hip Hne Hdns. exists (strings.TrimSuffix dnsName ("." +:+ d)).
  split_and!.
  - simpl. by rewrite Hip, (string_length_nonzero _ Hne), Hdns.
  - intros short ->. apply (TrimSuffix_append short ("." +:+ d)).
  - intros Hsuffix. unfold strings.TrimSuffix. by rewrite Hsuffix.
Qed.

Lemma node_hostname_strips_domain_witness :
  exists hostname,
    nodeEndpointAddresses oneMemberEnv "example.com"
      {| ServiceNetwork := ["172.30.0.0/16"] |} [master0] [bootstrapAddress] =
      Ok ([bootstrapAddress] ++
          [ {| IP := "10.0.0.1"; Hostname := hostname;
               NodeName := Some (Node.Name master0) |} ]) /\
    (forall short, "etcd-0.example.com" = short +:+ "." +:+ "example.com" ->
                   hostname = short) /\
    (strings.HasSuffix "etcd-0.example.com" ("." +:+ "example.com") = false ->
     hostname = "etcd-0.example.com").
Proof.
  apply (node_hostname_strips_domain oneMemberEnv "example.com"
           {| ServiceNetwork := ["172.30.0.0/16"] |} master0
           "10.0.0.1" "etcd-0.example.com" [bootstrapAddress]).
  - vm_compute. reflexivity.
  - discriminate.
  - vm_compute. reflexivity.
Defined.

(** ** The comparator and the subset comparison *)

Lemma comparator_named data i j a b :
  Forall (fun a => NodeName a <> None) data ->
  data !! i = Some a -> data !! j = Some b ->
  newEndpointAddressSliceComparator data i j
  = Val (bool_decide (addr_compare a b = Lt)).
Proof.
  intros Hall Hi Hj. rewrite (comparator_lookup data i j a b Hi Hj).
  apply lessAddress_val. rewrite Forall_forall in Hall.
  intros [_ [Hn|Hn]]; revert Hn; apply Hall; by eapply list_elem_of_lookup_2.
Qed.

Lemma comparator_true_inv data i j :
  newEndpointAddressSliceComparator data i j = Val true ->
  exists a b, data !! i = Some a /\ data !! j = Some b.
Proof.
  unfold newEndpointAddressSliceComparator, index.
  destruct (data !! i) as [a|]; [|done].
  destruct (data !! j) as [b|]; [|done]. by exists a, b.
Qed.

(** X6: on addresses that all name a node, the comparator of
    [newEndpointAddressSliceComparator] is a strict total order on the
    entries: an entry is not less than itself, the order is asymmetric and
    transitive, and of two distinct entries one is less than the other. *)
Theorem comparator_strict_total_order (data : list EndpointAddress) :
  Forall (fun a => NodeName a <> None) data ->
  (forall i a, data !! i = Some a ->
     newEndpointAddressSliceComparator data i i = Val false) /\
  (forall i j,
     newEndpointAddressSliceComparator data i j = Val true ->
     newEndpointAddressSliceComparator data j i = Val false) /\
  (forall i j k,
     newEndpointAddressSliceComparator data i j = Val true ->
     newEndpointAddressSliceComparator data j k = Val true ->
     newEndpointAddressSliceComparator data i k = Val true) /\
  (forall i j a b, data !! i = Some a -> data !! j = Some b -> a <> b ->
     newEndpointAddressSliceComparator data i j = Val true \/
     newEndpointAddressSliceComparator data j i = Val true).
Proof.
  intros Hall. pose proof addr_compare_total as Ht. split_and!.
  - intros i a Hi. rewrite (comparator_named data i i a a Hall Hi Hi).
    f_equal. apply bool_decide_eq_false_2.
    by rewrite (proj2 (tc_eq _ Ht a a) eq_refl).
  - intros i j Hij. destruct (comparator_true_inv _ _ _ Hij) as (a & b & Hi & Hj).
    rewrite (comparator_named data i j a b Hall Hi Hj) in Hij.
    rewrite (comparator_named data j i b a Hall Hj Hi).
    injection Hij as Hij. apply bool_decide_eq_true in Hij.
    f_equal. apply bool_decide_eq_false_2.
    rewrite (tc_antisym _ Ht a b), Hij. done.
  - intros i j k Hij Hjk.
    destruct (comparator_true_inv _ _ _ Hij) as (a & b & Hi & Hj).
    destruct (comparator_true_inv _ _ _ Hjk) as (b' & c & Hj' & Hk).
    assert (b' = b) as -> by congruence.
    rewrite (comparator_named data i j a b Hall Hi Hj) in Hij.
    rewrite (comparator_named data j k b c Hall Hj Hk) in Hjk.
    rewrite (comparator_named data i k a c Hall Hi Hk).
    injection Hij as Hij. injection Hjk as Hjk.
    apply bool_decide_eq_true in Hij, Hjk.
    f_equal. apply bool_decide_eq_true_2. by apply (tc_trans _ Ht a b c).
  - intros i j a b Hi Hj Hne.
    rewrite (comparator_named data i j a b Hall Hi Hj).
    rewrite (comparator_named data j i b a Hall Hj Hi).
    rewrite (tc_antisym _ Ht a b).
    destruct (addr_compare a b) eqn:E; simpl.
    + by apply (tc_eq _ Ht) in E.
    + left. f_equal.
    + right. f_equal.
Qed.

Lemma comparator_strict_total_order_witness :
  newEndpointAddressSliceComparator [member0; bootstrapTwin] 1 0 = Val false.
Proof.
  apply (proj1 (proj2 (comparator_strict_total_order [member0; bootstrapTwin]
                         ltac:(repeat constructor; discriminate))) 0 1).
  reflexivity.
Defined.

(** X7: [endpointSubsetEqual] returns true exactly when the two address
    lists are permutations of each other and can be sorted without a nil
    dereference, and the not-ready addresses and the ports agree in number;
    the contents of the not-ready addresses and of the ports are not
    compared. *)
Theorem subset_equal_iff (lhs rhs : EndpointSubset) :
  endpointSubsetEqual lhs rhs = Val true <->
  Addresses lhs ≡ₚ Addresses rhs /\
  nilTieFree (Addresses lhs) /\
  length (NotReadyAddresses lhs) = length (NotReadyAddresses rhs) /\
  length (Ports lhs) = length (Ports rhs).
Proof.
  split.
  - intros Heq.
    destruct (decide (length (Addresses lhs) = length (Addresses rhs))) as [Ha|Ha];
      [|unfold endpointSubsetEqual in Heq;
        by rewrite (proj2 (Nat.eqb_neq _ _) Ha) in Heq].
    destruct (decide (length (NotReadyAddresses lhs)
                      = length (NotReadyAddresses rhs))) as [Hn|Hn];
      [|unfold endpointSubsetEqual in Heq;
        by rewrite Ha, Nat.eqb_refl, (proj2 (Nat.eqb_neq _ _) Hn) in Heq].
    destruct (decide (length (Ports lhs) = length (Ports rhs))) as [Hp|Hp];
      [|unfold endpointSubsetEqual in Heq;
        by rewrite Ha, Hn, !Nat.eqb_refl, (proj2 (Nat.eqb_neq _ _) Hp) in Heq].
    rewrite (endpointSubsetEqual_sorts lhs rhs Ha Hn Hp) in Heq.
    destruct (sortAddresses (Addresses lhs)) as [l|] eqn:El; [|done].
    destruct (sortAddresses (Addresses rhs)) as [r|] eqn:Er; [|done].
    simpl in Heq. injection Heq as Heq. apply bool_decide_eq_true in Heq as ->.
    pose proof (sortAddresses_val_inv _ _ El) as Hfl.
    pose proof (sortAddresses_val_inv _ _ Er) as Hfr.
    destruct (sortAddresses_ok _ Hfl) as (l' & El' & Hpl & _).
    destruct (sortAddresses_ok _ Hfr) as (r' & Er' & Hpr & _).
    rewrite El in El'. rewrite Er in Er'.
    injection El' as <-. injection Er' as <-.
    split_and!; [|done..]. by rewrite <- Hpl, Hpr.
  - intros (Hperm & Hfree & Hn & Hp). by apply endpointSubsetEqual_perm.
Qed.

(** X8: [endpointSubsetEqual] is symmetric in its arguments, panics
    included. *)
Theorem subset_equal_symmetric (lhs rhs : EndpointSubset) :
  endpointSubsetEqual lhs rhs = endpointSubsetEqual rhs lhs.
Proof.
  destruct (decide (length (Addresses lhs) = length (Addresses rhs))) as [Ha|Ha];
    [|unfold endpointSubsetEqual;
      rewrite (proj2 (Nat.eqb_neq _ _) Ha);
      by rewrite (proj2 (Nat.eqb_neq _ _) (not_eq_sym Ha))].
  destruct (decide (length (NotReadyAddresses lhs)
                    = length (NotReadyAddresses rhs))) as [Hn|Hn];
    [|unfold endpointSubsetEqual; rewrite Ha, !Nat.eqb_refl;
      rewrite (proj2 (Nat.eqb_neq _ _) Hn);
      by rewrite (proj2 (Nat.eqb_neq _ _) (not_eq_sym Hn))].
  destruct (decide (length (Ports lhs) = length (Ports rhs))) as [Hp|Hp];
    [|unfold endpointSubsetEqual; rewrite Ha, Hn, !Nat.eqb_refl;
      rewrite (proj2 (Nat.eqb_neq _ _) Hp);
      by rewrite (proj2 (Nat.eqb_neq _ _) (not_eq_sym Hp))].
  rewrite (endpointSubsetEqual_sorts lhs rhs Ha Hn Hp).
  rewrite (endpointSubsetEqual_sorts rhs lhs (eq_sym Ha) (eq_sym Hn) (eq_sym Hp)).
  destruct (sortAddresses (Addresses lhs)) as [l|p] eqn:El;
    destruct (sortAddresses (Addresses rhs)) as [r|q] eqn:Er; simpl.
  - unfold DeepEqual. f_equal. apply bool_decide_ext. split; congruence.
  - done.
  - done.
  - apply sortAddresses_panics in El as [-> _].
    by apply sortAddresses_panics in Er as [-> _].
Qed.

Lemma endpointsSubsetsEqualLoop_true lhs rhs :
  length lhs = length rhs ->
  endpointsSubsetsEqualLoop lhs rhs = Val true <->
  Forall2 (fun l r => endpointSubsetEqual l r = Val true) lhs rhs.
Proof.
  revert rhs. induction lhs as [|l lhs IH]; intros [|r rhs]; simpl; try done.
  intros [= Hlen]. rewrite Forall2_cons.
  destruct (endpointSubsetEqual l r) as [[|]|p]; simpl.
  - rewrite (IH rhs Hlen). tauto.
  - split; [done|]. by intros [? _].
  - split; [done|]. by intros [? _].
Qed.

(** X9: [endpointsSubsetsEqual] compares the subsets position by
    position: it returns true exactly when every pair of subsets at the same
    position is equal and the lists have the same length, false for lists of
    different lengths, and false at a first pair that differs without
    looking at the later pairs. *)
Theorem subsets_equal_positional (lhs rhs : list EndpointSubset) :
  (endpointsSubsetsEqual lhs rhs = Val true <->
   Forall2 (fun l r => endpointSubsetEqual l r = Val true) lhs rhs) /\
  (length lhs <> length rhs -> endpointsSubsetsEqual lhs rhs = Val false) /\
  (forall l r lhs' rhs',
     lhs = l :: lhs' -> rhs = r :: rhs' -> length lhs' = length rhs' ->
     endpointSubsetEqual l r = Val false ->
     endpointsSubsetsEqual lhs rhs = Val false).
Proof.
  unfold endpointsSubsetsEqual. split_and!.
  - destruct (decide (length lhs = length rhs)) as [Hlen|Hlen].
    + rewrite Hlen, Nat.eqb_refl. simpl. by apply endpointsSubsetsEqualLoop_true.
    + rewrite (proj2 (Nat.eqb_neq _ _) Hlen). simpl. split; [done|].
      intros H. by apply Forall2_length in H.
  - intros Hlen. by rewrite (proj2 (Nat.eqb_neq _ _) Hlen).
  - intros l r lhs' rhs' -> -> Hlen Hfalse. simpl.
    by rewrite Hlen, Nat.eqb_refl, Hfalse.
Qed.

(** ** [applyEndpoints] *)




(** Shape of [applyEndpoints] when the lister returns an error. *)
Lemma applyEndpoints_unread_shape e w required err :
  endpointsListerGet e w = (Val (None, Some err), w) ->
  applyEndpoints e required w =
    if errNotFound err then
      match endpointsCreateFault e required with
      | Some err' =>
          (Val (Some err'),
           {| published := published w; conditions := conditions w;
              calls := calls w ++
                [CreateCall required;
                 WarningEvent "EndpointsCreateFailed"
                   ("Failed to create endpoints/" +:+ Name (Meta required)
                    +:+ " -n " +:+ Namespace (Meta required) +:+ ": "
                    +:+ errMsg err')] |})
      | None =>
          (Val (Some err),
           {| published := Some required; conditions := conditions w;
              calls := calls w ++
                [CreateCall required;
                 WarningEvent "EndpointsCreated"
                   ("Created endpoints/" +:+ Name (Meta required) +:+ " -n "
                    +:+ Namespace (Meta required)
                    +:+ " because it was missing")] |})
      end
    else (Val (Some err), w).
Proof.
  intros Hget. unfold applyEndpoints. unfoldM. rewrite Hget. simpl.
  destruct (errNotFound err); simpl; [|done].
  unfold endpointsCreate. unfoldM. simpl.
  destruct (endpointsCreateFault e required); simpl; by rewrite <- app_assoc.
Qed.

(** The trace of one call of [applyEndpoints]. *)
Lemma applyEndpoints_trace e required w r w' :
  applyEndpoints e required w = (r, w') ->
  conditions w' = conditions w /\
  ((calls w' = calls w /\ published w' = published w) \/
   (exists reason message,
      calls w' = calls w ++ [CreateCall required; WarningEvent reason message] /\
      (published w' = published w \/ published w' = Some required) /\
      forall existing, ~ existingRead e w existing) \/
   (exists toWrite reason message,
      calls w' = calls w ++ [UpdateCall toWrite; WarningEvent reason message] /\
      (published w' = published w \/ published w' = Some toWrite))).
Proof.
  destruct (endpointsListerGet_cases e w) as [[existing Hread]|[err Hget]].
  - rewrite (applyEndpoints_existing e w required existing Hread).
    destruct (resourcemerge.EnsureObjectMeta _ _ _) as [modified meta].
    destruct (endpointsSubsetsEqual _ _) as [equal|p];
      [|intros [= <- <-]; split; [done|by left]].
    simpl. destruct (negb equal || modified);
      [|intros [= <- <-]; split; [done|by left]].
    destruct (endpointsUpdateFault e _) as [err|];
      intros [= <- <-]; (split; [done|]); right; right; simpl;
      eexists _, _, _; (split; [reflexivity|]); [by left|by right].
  - assert (forall existing, ~ existingRead e w existing) as Hno.
    { intros existing [Hfault Hpub]. unfold endpointsListerGet in Hget.
      by rewrite Hfault, Hpub in Hget. }
    rewrite (applyEndpoints_unread_shape e w required err Hget).
    destruct (errNotFound err); [|intros [= <- <-]; split; [done|by left]].
    destruct (endpointsCreateFault e required) as [err'|];
      intros [= <- <-]; (split; [done|]); right; left; simpl;
      eexists _, _; (split; [reflexivity|]); (split; [|done]);
      [by left|by right].
Qed.

(** X11: [applyEndpoints] leaves the operator conditions alone and makes
    either no outgoing call, or one Create or one Update followed by one
    event; the store is unchanged or holds the object written. *)
Theorem apply_at_most_one_write (e : env) (required : Endpoints) (w w' : world)
    (r : res (option error)) :
  applyEndpoints e required w = (r, w') ->
  conditions w' = conditions w /\
  ((calls w' = calls w /\ published w' = published w) \/
   (exists written reason message,
      (calls w' = calls w ++ [CreateCall written; WarningEvent reason message] \/
       calls w' = calls w ++ [UpdateCall written; WarningEvent reason message]) /\
      (published w' = published w \/ published w' = Some written))).
Proof.
  intros Hrun.
  destruct (applyEndpoints_trace e required w r w' Hrun)
    as [Hcond [Hnone|[(reason & message & Hcalls & Hpub & _)
                     |(toWrite & reason & message & Hcalls & Hpub)]]].
  - split; [done|by left].
  - split; [done|]. right. exists required, reason, message. split; [by left|done].
  - split; [done|]. right. exists toWrite, reason, message. split; [by right|done].
Qed.

Lemma apply_at_most_one_write_witness :
  conditions (snd (applyEndpoints oneMemberEnv
                     (desiredEndpoints oneMemberEnv "example.com" [member0])
                     emptyWorld))
  = conditions emptyWorld /\
  ((calls (snd (applyEndpoints oneMemberEnv
                  (desiredEndpoints oneMemberEnv "example.com" [member0])
                  emptyWorld)) = calls emptyWorld /\
    published (snd (applyEndpoints oneMemberEnv
                      (desiredEndpoints oneMemberEnv "example.com" [member0])
                      emptyWorld)) = published emptyWorld) \/
   (exists written reason message,
      (calls (snd (applyEndpoints oneMemberEnv
                     (desiredEndpoints oneMemberEnv "example.com" [member0])
                     emptyWorld))
       = calls emptyWorld ++ [CreateCall written; WarningEvent reason message] \/
       calls (snd (applyEndpoints oneMemberEnv
                     (desiredEndpoints oneMemberEnv "example.com" [member0])
                     emptyWorld))
       = calls emptyWorld ++ [UpdateCall written; WarningEvent reason message]) /\
      (published (snd (applyEndpoints oneMemberEnv
                         (desiredEndpoints oneMemberEnv "example.com" [member0])
                         emptyWorld)) = published emptyWorld \/
       published (snd (applyEndpoints oneMemberEnv
                         (desiredEndpoints oneMemberEnv "example.com" [member0])
                         emptyWorld)) = Some written))).
Proof.
  apply (apply_at_most_one_write oneMemberEnv
           (desiredEndpoints oneMemberEnv "example.com" [member0]) emptyWorld
           (snd (applyEndpoints oneMemberEnv
                   (desiredEndpoints oneMemberEnv "example.com" [member0])
                   emptyWorld))
           (Val (Some notFoundError))).
  vm_compute. reflexivity.
Defined.

(** X12: when [applyEndpoints] returns an error the store is unchanged,
    except on the create path, where the error is the not-found error of the
    read and the object has been created; when an existing object was read,
    the error is that of the failed Update, which an [EndpointsUpdateFailed]
    event follows. *)
Theorem apply_error_leaves_store (e : env) (required : Endpoints) (w w' : world)
    (err : error) :
  applyEndpoints e required w = (Val (Some err), w') ->
  (published w' = published w \/
   (errNotFound err = true /\ endpointsCreateFault e required = None /\
    published w' = Some required)) /\
  (forall existing,
     existingRead e w existing ->
     published w' = published w /\
     exists toWrite message,
       endpointsUpdateFault e toWrite = Some err /\
       calls w' = calls w ++
         [UpdateCall toWrite; WarningEvent "EndpointsUpdateFailed" message]).
Proof.
  intros Hrun. split.
  - destruct (endpointsListerGet_cases e w) as [[existing Hread]|[err0 Hget]].
    + rewrite (applyEndpoints_existing e w required existing Hread) in Hrun.
      destruct (resourcemerge.EnsureObjectMeta _ _ _) as [modified meta].
      destruct (endpointsSubsetsEqual _ _) as [equal|p]; [|done].
      simpl in Hrun. destruct (negb equal || modified); [|done].
      destruct (endpointsUpdateFault e _); [|done].
      injection Hrun as _ <-. by left.
    + rewrite (applyEndpoints_unread_shape e w required err0 Hget) in Hrun.
      destruct (errNotFound err0) eqn:Enf; [|injection Hrun as _ <-; by left].
      destruct (endpointsCreateFault e required) eqn:Ecreate;
        injection Hrun as <- <-; [by left|by right].
  - intros existing Hread.
    rewrite (applyEndpoints_existing e w required existing Hread) in Hrun.
    destruct (resourcemerge.EnsureObjectMeta _ _ _) as [modified meta].
    destruct (endpointsSubsetsEqual _ _) as [equal|p]; [|done].
    simpl in Hrun. destruct (negb equal || modified); [|done].
    destruct (endpointsUpdateFault e _) as [err'|] eqn:Efault; [|done].
    injection Hrun as <- <-. split; [done|]. by eexists _, _.
Qed.

Lemma apply_error_leaves_store_witness :
  (published (snd (applyEndpoints oneMemberEnv
                     (desiredEndpoints oneMemberEnv "example.com" [member0])
                     emptyWorld)) = published emptyWorld \/
   (errNotFound notFoundError = true /\
    endpointsCreateFault oneMemberEnv
      (desiredEndpoints oneMemberEnv "example.com" [member0]) = None /\
    published (snd (applyEndpoints oneMemberEnv
                      (desiredEndpoints oneMemberEnv "example.com" [member0])
                      emptyWorld))
    = Some (desiredEndpoints oneMemberEnv "example.com" [member0]))) /\
  (forall existing,
     existingRead oneMemberEnv emptyWorld existing ->
     published (snd (applyEndpoints oneMemberEnv
                       (desiredEndpoints oneMemberEnv "example.com" [member0])
                       emptyWorld)) = published emptyWorld /\
     exists toWrite message,
       endpointsUpdateFault oneMemberEnv toWrite = Some notFoundError /\
       calls (snd (applyEndpoints oneMemberEnv
                     (desiredEndpoints oneMemberEnv "example.com" [member0])
                     emptyWorld))
       = calls emptyWorld ++
         [UpdateCall toWrite; WarningEvent "EndpointsUpdateFailed" message]).
Proof.
  apply (apply_error_leaves_store oneMemberEnv
           (desiredEndpoints oneMemberEnv "example.com" [member0]) emptyWorld
           (snd (applyEndpoints oneMemberEnv
                   (desiredEndpoints oneMemberEnv "example.com" [member0])
                   emptyWorld))
           notFoundError).
  vm_compute. reflexivity.
Defined.

(** X13: the object that [applyEndpoints] passes to Update carries the
    merged metadata, and the existing subsets when they are equal to the
    required ones, the required subsets otherwise. *)
Theorem apply_written_object (e : env) (required existing toWrite : Endpoints)
    (w w' : world) (r : res (option error)) (t : list call) :
  existingRead e w existing ->
  applyEndpoints e required w = (r, w') ->
  calls w' = calls w ++ UpdateCall toWrite :: t ->
  Meta toWrite
    = snd (resourcemerge.EnsureObjectMeta false (Meta existing) (Meta required)) /\
  exists equal,
    endpointsSubsetsEqual (Subsets existing) (Subsets required) = Val equal /\
    Subsets toWrite = if equal then Subsets existing else Subsets required.
Proof.
  intros Hread Hrun Hcalls.
  rewrite (applyEndpoints_existing e w required existing Hread) in Hrun.
  destruct (resourcemerge.EnsureObjectMeta _ _ _) as [modified meta].
  destruct (endpointsSubsetsEqual _ _) as [equal|p].
  2:{ injection Hrun as _ <-. rewrite <- (app_nil_r (calls w)) in Hcalls at 1.
      by apply app_inv_head in Hcalls. }
  simpl in Hrun. destruct (negb equal || modified).
  2:{ injection Hrun as _ <-. rewrite <- (app_nil_r (calls w)) in Hcalls at 1.
      by apply app_inv_head in Hcalls. }
  destruct (endpointsUpdateFault e _); injection Hrun as _ <-; simpl in Hcalls;
    apply app_inv_head in Hcalls; injection Hcalls as <- _;
    (split; [done|]); by exists equal.
Qed.

Lemma apply_written_object_witness :
  Meta (desiredEndpoints oneMemberEnv "example.com" [bootstrapAddress; member0])
    = snd (resourcemerge.EnsureObjectMeta false
             (Meta (desiredEndpoints (exampleEnv [] [] None) "example.com"
                      [bootstrapAddress]))
             (Meta (desiredEndpoints oneMemberEnv "example.com"
                      [bootstrapAddress; member0]))) /\
  exists equal,
    endpointsSubsetsEqual
      (Subsets (desiredEndpoints (exampleEnv [] [] None) "example.com"
                  [bootstrapAddress]))
      (Subsets (desiredEndpoints oneMemberEnv "example.com"
                  [bootstrapAddress; member0])) = Val equal /\
    Subsets (desiredEndpoints oneMemberEnv "example.com"
               [bootstrapAddress; member0])
    = if equal
      then Subsets (desiredEndpoints (exampleEnv [] [] None) "example.com"
                      [bootstrapAddress])
      else Subsets (desiredEndpoints oneMemberEnv "example.com"
                      [bootstrapAddress; member0]).
Proof.
  apply (apply_written_object oneMemberEnv
           (desiredEndpoints oneMemberEnv "example.com" [bootstrapAddress; member0])
           (desiredEndpoints (exampleEnv [] [] None) "example.com" [bootstrapAddress])
           (desiredEndpoints oneMemberEnv "example.com" [bootstrapAddress; member0])
           (exampleWorld [bootstrapAddress])
           (snd (applyEndpoints oneMemberEnv
                   (desiredEndpoints oneMemberEnv "example.com"
                      [bootstrapAddress; member0])
                   (exampleWorld [bootstrapAddress])))
           (Val None)
           [WarningEvent "EndpointsUpdated"
              "Updated endpoints/host-etcd -n openshift-etcd because it changed: {}"]).
  - split; reflexivity.
  - vm_compute. reflexivity.
  - vm_compute. reflexivity.
Defined.

(** ** [syncHostEndpoints] *)

(** The trace of one reconcile. *)
Lemma syncHostEndpoints_trace e w r w' :
  syncHostEndpoints e w = (r, w') ->
  conditions w' = conditions w /\
  ((calls w' = calls w /\ published w' = published w) \/
   (exists toWrite reason message,
      calls w' = calls w ++ [UpdateCall toWrite; WarningEvent reason message] /\
      (published w' = published w \/ published w' = Some toWrite))).
Proof.
  intros Hrun.
  destruct (syncHostEndpoints_cases e w)
    as [[err Hfail]|(existing & d & members & Hread & Hmem)].
  { rewrite (builderFailure_sound e w err Hfail) in Hrun.
    injection Hrun as _ <-. split; [done|by left]. }
  rewrite (syncHostEndpoints_resolved e w existing d members Hread Hmem) in Hrun.
  destruct (Subsets existing) as [|subset0 rest];
    [injection Hrun as _ <-; split; [done|by left]|].
  simpl in Hrun. destruct (decide _) in Hrun;
    [injection Hrun as _ <-; split; [done|by left]|].
  destruct (applyEndpoints_trace e _ w r w' Hrun)
    as [Hcond [Hnone|[(reason & message & _ & _ & Hno)|Hupdate]]].
  - split; [done|by left].
  - by destruct (Hno existing).
  - split; [done|by right].
Qed.



Lemma SetStringIfSet_false m existing required s :
  resourcemerge.SetStringIfSet m existing required = (false, s) ->
  m = false /\ s = existing.
Proof.
  unfold resourcemerge.SetStringIfSet.
  destruct (String.length required =? 0)%nat; [by intros [= -> ->]|].
  destruct (negb (String.eqb required existing)); [done|by intros [= -> ->]].
Qed.

Lemma MergeMap_false m existing required merged :
  resourcemerge.MergeMap m existing required = (false, merged) ->
  m = false /\ merged = existing.
Proof.
  unfold resourcemerge.MergeMap. case_bool_decide as H; [|done].
  by intros [= -> <-].
Qed.

(** A merge that reports no change returns the existing metadata. *)
Lemma EnsureObjectMeta_false existing required meta :
  resourcemerge.EnsureObjectMeta false existing required = (false, meta) ->
  meta = existing.
Proof.
  unfold resourcemerge.EnsureObjectMeta.
  destruct (resourcemerge.SetStringIfSet false (Namespace existing) (Namespace required))
    as [m1 ns] eqn:E1.
  destruct (resourcemerge.SetStringIfSet m1 (Name existing) (Name required))
    as [m2 n] eqn:E2.
  destruct (resourcemerge.MergeMap m2 (Labels existing) (Labels required))
    as [m3 ls] eqn:E3.
  destruct (resourcemerge.MergeMap m3 (Annotations existing) (Annotations required))
    as [m4 an] eqn:E4.
  intros [= -> <-].
  apply MergeMap_false in E4 as [-> ->].
  apply MergeMap_false in E3 as [-> ->].
  apply SetStringIfSet_false in E2 as [-> ->].
  apply SetStringIfSet_false in E1 as [_ ->].
  by destruct existing.
Qed.

(** What the merged metadata holds of the required name and annotations. *)
Lemma EnsureObjectMeta_required m existing required b meta :
  resourcemerge.EnsureObjectMeta m existing required = (b, meta) ->
  (Name required <> "" -> Name meta = Name required) /\
  (forall k v, Annotations required !! k = Some v ->
               Annotations meta !! k = Some v) /\
  (forall k, Annotations required !! k = None ->
             Annotations meta !! k = Annotations existing !! k) /\
  (forall k v, Labels required !! k = Some v -> Labels meta !! k = Some v) /\
  (forall k, Labels required !! k = None ->
             Labels meta !! k = Labels existing !! k).
Proof.
  unfold resourcemerge.EnsureObjectMeta.
  destruct (resourcemerge.SetStringIfSet m (Namespace existing) (Namespace required))
    as [m1 ns] eqn:E1.
  destruct (resourcemerge.SetStringIfSet m1 (Name existing) (Name required))
    as [m2 n] eqn:E2.
  destruct (resourcemerge.MergeMap m2 (Labels existing) (Labels required))
    as [m3 ls] eqn:E3.
  destruct (resourcemerge.MergeMap m3 (Annotations existing) (Annotations required))
    as [m4 an] eqn:E4.
  intros [= _ <-]. simpl.
  unfold resourcemerge.MergeMap in E3, E4.
  injection E3 as _ <-. injection E4 as _ <-.
  split_and!.
  - intros Hne. unfold resourcemerge.SetStringIfSet in E2.
    rewrite (string_length_nonzero _ Hne) in E2.
    destruct (String.eqb (Name required) (Name existing)) eqn:E; simpl in E2.
    + injection E2 as _ <-. symmetry. by apply String.eqb_eq.
    + by injection E2 as _ <-.
  - intros k v Hk. by apply lookup_union_Some_l.
  - intros k Hk. by apply lookup_union_r.
  - intros k v Hk. by apply lookup_union_Some_l.
  - intros k Hk. by apply lookup_union_r.
Qed.

Lemma getEtcdDiscoveryDomain_nonempty e d :
  getEtcdDiscoveryDomain e = Ok d -> d <> "".
Proof.
  unfold getEtcdDiscoveryDomain.
  destruct (infrastructureListerGet e) as [infra|]; [|done].
  destruct (String.length (EtcdDiscoveryDomain infra) =? 0)%nat eqn:E; [done|].
  intros [= <-] Hd. by rewrite Hd in E.
Qed.

(** X15: after a reconcile that returns nil the published object is named
    [host-etcd], is annotated with the discovery domain, which is not empty,
    and its subsets are the desired ones (the member addresses and the
    bootstrap entry of the first existing subset) or equal to them under
    [endpointsSubsetsEqual]. *)
Theorem reconcile_success_publishes_desired (e : env) (w w' : world) :
  syncHostEndpoints e w = (Val None, w') ->
  exists existing subset0 rest d members p,
    existingRead e w existing /\
    Subsets existing = subset0 :: rest /\
    membersResolved e d members /\
    d <> "" /\
    published w' = Some p /\
    Name (Meta p) = "host-etcd" /\
    Annotations (Meta p) !! "alpha.installer.openshift.io/dns-suffix" = Some d /\
    (Subsets p =
       Subsets (desiredEndpoints e d (keepBootstrap (Addresses subset0) members)) \/
     endpointsSubsetsEqual (Subsets p)
       (Subsets (desiredEndpoints e d (keepBootstrap (Addresses subset0) members)))
     = Val true).
Proof.
  intros Hrun.
  destruct (syncHostEndpoints_cases e w)
    as [[err Hfail]|(existing & d & members & Hread & Hmem)].
  { by rewrite (builderFailure_sound e w err Hfail) in Hrun. }
  rewrite (syncHostEndpoints_resolved e w existing d members Hread Hmem) in Hrun.
  destruct (Subsets existing) as [|subset0 rest] eqn:Hsub; [done|].
  simpl in Hrun. destruct (decide _) as [|Hne] in Hrun; [done|].
  remember (desiredEndpoints e d (keepBootstrap (Addresses subset0) members))
    as desired eqn:Hdesired.
  rewrite (applyEndpoints_existing e w desired existing Hread) in Hrun.
  destruct (resourcemerge.EnsureObjectMeta false (Meta existing) (Meta desired))
    as [modified meta] eqn:Hmeta.
  destruct (EnsureObjectMeta_required _ _ _ _ _ Hmeta) as (Hname & Hann & _).
  assert (Name meta = "host-etcd") as Hname'.
  { rewrite Hname; by rewrite Hdesired. }
  assert (Annotations meta !! "alpha.installer.openshift.io/dns-suffix" = Some d)
    as Hann'.
  { apply Hann. rewrite Hdesired. simpl. apply lookup_singleton_eq. }
  assert (d <> "") as Hd.
  { destruct Hmem as (? & ? & Hdom & _). by eapply getEtcdDiscoveryDomain_nonempty. }
  destruct (endpointsSubsetsEqual (Subsets existing) (Subsets desired))
    as [equal|] eqn:Heq; [|done].
  simpl in Hrun. destruct (negb equal || modified) eqn:Hchanged.
  - destruct (endpointsUpdateFault e _); [done|]. injection Hrun as <-.
    eexists existing, subset0, rest, d, members, _.
    split_and!; [done..|reflexivity|done|done|]. simpl.
    destruct equal;
      [right; rewrite Hdesired in Heq; exact Heq|left; by rewrite Hdesired].
  - injection Hrun as <-.
    apply orb_false_elim in Hchanged as [Hequal ->].
    apply negb_false_iff in Hequal as ->.
    apply EnsureObjectMeta_false in Hmeta as ->.
    exists existing, subset0, rest, d, members, existing.
    split_and!; [done..|by destruct Hread|done|done|].
    right. rewrite Hdesired in Heq. exact Heq.
Qed.

Lemma reconcile_success_publishes_desired_witness :
  exists existing subset0 rest d members p,
    existingRead oneMemberEnv (exampleWorld [bootstrapAddress]) existing /\
    Subsets existing = subset0 :: rest /\
    membersResolved oneMemberEnv d members /\
    d <> "" /\
    published (snd (syncHostEndpoints oneMemberEnv (exampleWorld [bootstrapAddress])))
      = Some p /\
    Name (Meta p) = "host-etcd" /\
    Annotations (Meta p) !! "alpha.installer.openshift.io/dns-suffix" = Some d /\
    (Subsets p =
       Subsets (desiredEndpoints oneMemberEnv d
                  (keepBootstrap (Addresses subset0) members)) \/
     endpointsSubsetsEqual (Subsets p)
       (Subsets (desiredEndpoints oneMemberEnv d
                   (keepBootstrap (Addresses subset0) members)))
     = Val true).
Proof.
  apply (reconcile_success_publishes_desired oneMemberEnv
           (exampleWorld [bootstrapAddress])
           (snd (syncHostEndpoints oneMemberEnv (exampleWorld [bootstrapAddress])))).
  vm_compute. reflexivity.
Defined.

(** ** [sync] and the worker *)

Lemma syncHostEndpoints_statusReports e w r w' :
  syncHostEndpoints e w = (r, w') ->
  statusReports (calls w') = statusReports (calls w).
Proof.
  intros Hrun.
  destruct (syncHostEndpoints_trace e w r w' Hrun)
    as [_ [[-> _]|(toWrite & reason & message & -> & _)]]; [done|].
  unfold statusReports. rewrite omap_app. simpl. by rewrite app_nil_r.
Qed.

(** Shape of [sync] after the reconcile. *)
Lemma sync_shape e w :
  sync e w =
    match syncHostEndpoints e w with
    | (Panics p, w1) => (Panics p, w1)
    | (Val result, w1) =>
        let cond := match result with
                    | Some err => degradedCondition err
                    | None => healthyCondition
                    end in
        match updateStatusFault e cond with
        | Some updateErr =>
            (Val (Some (match result with Some err => err | None => updateErr end)),
             {| published := published w1; conditions := conditions w1;
                calls := calls w1 ++
                  [UpdateStatusCall cond;
                   WarningEvent "HostEndpointsErrorUpdatingStatus"
                     (errMsg updateErr)] |})
        | None =>
            (Val result,
             {| published := published w1;
                conditions := <["HostEndpointsDegraded" := cond]> (conditions w1);
                calls := calls w1 ++ [UpdateStatusCall cond] |})
        end
    end.
Proof.
  unfold sync, UpdateStatus. unfoldM.
  destruct (syncHostEndpoints e w) as [[[err|]|p] w1]; simpl; [| |done].
  - destruct (updateStatusFault e (degradedCondition err)) eqn:E;
      unfold degradedCondition in E |- *; rewrite E; simpl;
      by rewrite <- ?app_assoc.
  - destruct (updateStatusFault e healthyCondition) eqn:E;
      unfold healthyCondition in E |- *; rewrite E; simpl;
      by rewrite <- ?app_assoc.
Qed.

(** X16: [sync] records the [HostEndpointsDegraded] condition of the
    outcome of the reconcile, the healthy one on success and the degraded
    one with the message of the error otherwise, unless the status write
    fails, which leaves the conditions as they were; when [sync] returns
    nil the reconcile succeeded and the condition recorded is the healthy
    one. *)
Theorem sync_records_condition (e : env) (w w1 : world) (result : option error) :
  syncHostEndpoints e w = (Val result, w1) ->
  let cond :=
    match result with
    | Some err => degradedCondition err
    | None => healthyCondition
    end in
  conditions (snd (sync e w)) =
    match updateStatusFault e cond with
    | None => <["HostEndpointsDegraded" := cond]> (conditions w)
    | Some _ => conditions w
    end /\
  (fst (sync e w) = Val None ->
   result = None /\
   conditions (snd (sync e w)) !! "HostEndpointsDegraded" = Some healthyCondition).
Proof.
  intros Hrun cond.
  destruct (syncHostEndpoints_trace e w _ w1 Hrun) as [Hcond _].
  rewrite sync_shape, Hrun. cbv zeta. fold cond. split.
  - destruct (updateStatusFault e cond); simpl; by rewrite Hcond.
  - destruct (updateStatusFault e cond) eqn:E; simpl; [by destruct result|].
    intros [= ->]. split; [done|]. apply lookup_insert_eq.
Qed.

Lemma sync_records_condition_witness :
  conditions (snd (sync oneMemberEnv (exampleWorld [bootstrapAddress]))) =
    match updateStatusFault oneMemberEnv healthyCondition with
    | None => <["HostEndpointsDegraded" := healthyCondition]>
                (conditions (exampleWorld [bootstrapAddress]))
    | Some _ => conditions (exampleWorld [bootstrapAddress])
    end /\
  (fst (sync oneMemberEnv (exampleWorld [bootstrapAddress])) = Val None ->
   @None error = None /\
   conditions (snd (sync oneMemberEnv (exampleWorld [bootstrapAddress])))
     !! "HostEndpointsDegraded" = Some healthyCondition).
Proof.
  apply (sync_records_condition oneMemberEnv (exampleWorld [bootstrapAddress])
           (snd (syncHostEndpoints oneMemberEnv (exampleWorld [bootstrapAddress])))
           None).
  vm_compute. reflexivity.
Defined.

Lemma sync_statusReports e w r w' :
  sync e w = (r, w') ->
  match r with
  | Val _ => exists cond,
      statusReports (calls w') = statusReports (calls w) ++ [cond]
  | Panics _ => statusReports (calls w') = statusReports (calls w)
  end.
Proof.
  rewrite sync_shape.
  destruct (syncHostEndpoints e w) as [[result|p] w1] eqn:Hrun.
  - pose proof (syncHostEndpoints_statusReports e w _ w1 Hrun) as Hst.
    simpl. destruct (updateStatusFault e _); intros [= <- <-]; simpl;
      eexists; unfold statusReports in *; rewrite omap_app, Hst; simpl; done.
  - intros [= <- <-]. by eapply syncHostEndpoints_statusReports.
Qed.

(** One processed item: its queue calls and its status report. *)
Lemma processNextWorkItem_item e key c r c' :
  processNextWorkItem e (key, false) c = (r, c') ->
  exists t,
    queueCalls c' = queueCalls c ++ t /\
    doneKeys t = [key] /\
    match r with
    | Val b =>
        b = true /\ omap settles t = [key] /\
        exists cond,
          statusReports (calls (theWorld c'))
          = statusReports (calls (theWorld c)) ++ [cond]
    | Panics _ =>
        omap settles t = [] /\
        statusReports (calls (theWorld c')) = statusReports (calls (theWorld c))
    end.
Proof.
  unfold processNextWorkItem.
  destruct (sync e (theWorld c)) as [[[err|]|p] w'] eqn:Hsync;
    pose proof (sync_statusReports e _ _ _ Hsync) as Hst;
    intros [= <- <-]; simpl; eexists; (split; [reflexivity|]); by simpl.
Qed.

(** X17: a worker processes the items up to the first shutdown report, the
    first panic or the end of the items.  Every processed item is marked
    Done once, in order; every item whose reconcile did not panic is either
    forgotten or queued again with rate limiting and has one status write;
    an item whose reconcile panicked is the last one processed and is
    neither forgotten nor queued again.  An error of a reconcile never stops
    the worker. *)
Theorem worker_settles_every_item (e : env) (gets : list (string * bool))
    (c c' : controller) (out : workerOutcome) :
  runWorker e gets c = (out, c') ->
  exists processed rest t reports,
    gets = processed ++ rest /\
    Forall (fun got => got.2 = false) processed /\
    queueCalls c' = queueCalls c ++ t /\
    doneKeys t = processed.*1 /\
    statusReports (calls (theWorld c'))
      = statusReports (calls (theWorld c)) ++ reports /\
    length reports = length (omap settles t) /\
    match out with
    | WorkerStopped =>
        omap settles t = processed.*1 /\
        exists key rest', rest = (key, true) :: rest'
    | WorkerBlocked => omap settles t = processed.*1 /\ rest = []
    | WorkerPanicked _ =>
        exists settled key, processed = settled ++ [(key, false)] /\
                            omap settles t = settled.*1
    end.
Proof.
  revert c. induction gets as [|[key quit] gets IH]; intros c; cbn [runWorker].
  - intros [= <- <-]. exists [], [], [], [].
    by rewrite !app_nil_r.
  - destruct quit.
    + cbn [processNextWorkItem]. intros [= <- <-]. exists [], ((key, true) :: gets), [], [].
      rewrite !app_nil_r. split_and!; try done. by eexists _, _.
    + destruct (processNextWorkItem e (key, false) c) as [[b|p] c1] eqn:Hitem;
        destruct (processNextWorkItem_item e key c _ c1 Hitem)
          as (t1 & Hq1 & Hdone1 & Hr1).
      * destruct Hr1 as (-> & Hsettle1 & cond & Hst1).
        intros Hrest.
        destruct (IH c1 Hrest)
          as (processed & rest & t & reports & -> & Hall & Hq & Hdone & Hst
              & Hlen & Hout).
        exists ((key, false) :: processed), rest, (t1 ++ t), (cond :: reports).
        unfold doneKeys in *. rewrite !omap_app, Hdone1, Hdone, Hsettle1.
        split_and!; try done.
        -- by constructor.
        -- by rewrite Hq, Hq1, app_assoc.
        -- by rewrite Hst, Hst1, <- app_assoc.
        -- simpl. by rewrite Hlen.
        -- destruct out.
           ++ destruct Hout as [-> Hrest']. by split.
           ++ destruct Hout as [-> Hrest']. by split.
           ++ destruct Hout as (settled & key' & -> & ->).
              by exists ((key, false) :: settled), key'.
      * destruct Hr1 as (Hsettle1 & Hst1). intros [= <- <-].
        exists [(key, false)], gets, t1, [].
        rewrite app_nil_r, Hsettle1.
        split_and!; try done; [by repeat constructor|].
        by exists [], key.
Qed.

Lemma worker_settles_every_item_witness :
  exists processed rest t reports,
    [("key", false); ("key", false); ("key", true)] = processed ++ rest /\
    Forall (fun got => got.2 = false) processed /\
    queueCalls
      (snd (runWorker oneMemberEnv [("key", false); ("key", false); ("key", true)]
              (freshController (exampleWorld [bootstrapAddress]))))
    = queueCalls (freshController (exampleWorld [bootstrapAddress])) ++ t /\
    doneKeys t = processed.*1 /\
    statusReports
      (calls (theWorld
         (snd (runWorker oneMemberEnv
                 [("key", false); ("key", false); ("key", true)]
                 (freshController (exampleWorld [bootstrapAddress]))))))
      = statusReports
          (calls (theWorld (freshController (exampleWorld [bootstrapAddress]))))
        ++ reports /\
    length reports = length (omap settles t) /\
    omap settles t = processed.*1 /\
    exists key rest', rest = (key, true) :: rest'.
Proof.
  apply (worker_settles_every_item oneMemberEnv
           [("key", false); ("key", false); ("key", true)]
           (freshController (exampleWorld [bootstrapAddress]))
           (snd (runWorker oneMemberEnv
                   [("key", false); ("key", false); ("key", true)]
                   (freshController (exampleWorld [bootstrapAddress]))))
           WorkerStopped).
  vm_compute. reflexivity.
Defined.
